(** * One-port network algebra of lcapy (lcapy/oneport.py)

    A shallow embedding of the one-port classes, of the derived-quantity
    resolver, of the [Ser]/[Par] combinators, of [ParSer.simplify] and of
    the Thevenin/Norton reducers, followed by the properties proved of
    them.

    The symbolic expression engine (sympy and the lcapy expression
    classes) is not part of oneport.py: it is the interface [Engine]
    below, and every definition of the model is parametric in it. *)

From Stdlib Require Import ZArith QArith Qcanon String Bool List Lia.
From stdpp Require Import base option list.

Set Default Proof Using "Type".

(** ** Exceptions and fallible computations *)

Inductive error : Type :=
| ValueError (msg : string)
| TypeError (msg : string)
| AttributeError (name : string).

Inductive result (A : Type) : Type :=
| Ok (a : A)
| Err (e : error).
Arguments Ok {A} a.
Arguments Err {A} e.

Definition result_bind {A B : Type} (f : A -> result B) (m : result A) : result B :=
  match m with
  | Ok a => f a
  | Err e => Err e
  end.

#[global] Instance result_mbind : MBind result := @result_bind.
#[global] Instance result_mret : MRet result := @Ok.

Definition is_ok {A : Type} (m : result A) : bool :=
  match m with Ok _ => true | Err _ => false end.

(** ** Quantities *)

Inductive qtag : Type := TImpedance | TAdmittance | TVoltage | TCurrent.

#[global] Instance qtag_eq_dec : EqDecision qtag.
Proof. solve_decision. Defined.

(** Modelled from the spec: the quantity wrappers [Impedance],
    [Admittance], [Voltage] and [Current] (lcapy/impedance.py and its
    siblings, which oneport.py imports) are "thin semantic tags over a
    symbolic value": a quantity is a symbolic value with the tag of the
    wrapper applied last. *)
Record quantity (A : Type) : Type := mkq { qtag_of : qtag; qval : A }.
Arguments mkq {A} _ _.
Arguments qtag_of {A} _.
Arguments qval {A} _.

(** ** Classes of oneport.py and their inheritance *)

Inductive cls : Type :=
| cOnePort | cParSer | cPar | cSer
| cR | cG | cL | cC | cCPE | cY | cZ
| cVoltageSource | csV | cV | cVstep | cVdc | cVac | cVnoise | cv
| cCurrentSource | csI | cI | cIstep | cIdc | cIac | cInoise | ci
| cXtal | cFerriteBead
| cControlledSource | cCCVS | cCCCS | cVCVS | cVCCS
| cDummy | cW | cO | cP.

#[global] Instance cls_eq_dec : EqDecision cls.
Proof. solve_decision. Defined.

(** The base class named in each [class X(Base)] statement; [OnePort] is
    the root of the hierarchy modelled here. *)
Definition base_class (c : cls) : option cls :=
  match c with
  | cOnePort => None
  | cParSer => Some cOnePort
  | cPar | cSer => Some cParSer
  | cR | cG | cL | cC | cCPE | cY | cZ => Some cOnePort
  | cVoltageSource => Some cOnePort
  | csV | cV | cVstep | cVdc | cVac | cVnoise | cv => Some cVoltageSource
  | cCurrentSource => Some cOnePort
  | csI | cI | cIstep | cIdc | cIac | cInoise | ci => Some cCurrentSource
  | cXtal | cFerriteBead => Some cOnePort
  | cControlledSource => Some cOnePort
  | cCCVS | cCCCS | cVCVS | cVCCS => Some cControlledSource
  | cDummy => Some cOnePort
  | cW | cO => Some cDummy
  | cP => Some cO
  end.

(** [issubclass c d]: [d] is [c] or one of its ancestors.  The hierarchy
    is four classes deep (P < O < Dummy < OnePort). *)
Fixpoint issubclass_upto (depth : nat) (c d : cls) : bool :=
  bool_decide (c = d) ||
  match depth with
  | O => false
  | S depth' =>
      match base_class c with
      | Some b => issubclass_upto depth' b d
      | None => false
      end
  end.

Definition issubclass : cls -> cls -> bool := issubclass_upto 4.

(** ** Instance attributes

    What each [__init__] stores besides the four characterising
    quantities.  ([args], kept for printing and for drawing only, and the
    noise identifier are left out.) *)

Inductive body (A : Type) : Type :=
| bOnePort | bVoltageSource | bCurrentSource | bControlledSource | bDummy
| bR (_R : A)
| bG (_G : A)
| bL (L i0 : A) (hasic zeroic : bool)
| bC (C v0 : A) (hasic zeroic : bool)
| bCPE (K alpha : A)
| bY | bZ
| bsV | bV | bVnoise | bv
| bVstep (v0 : A)
| bVdc (v0 : A)
| bVac (omega v0 phi : A)
| bsI | bI | bInoise | bi
| bIstep (i0 : A)
| bIdc (i0 : A)
| bIac (omega i0 phi : A)
| bXtal (C0 R1 L1 C1 : A)
| bFerriteBead (Rs Rp Cp Lp : A)
| bCCVS | bCCCS | bVCVS | bVCCS
| bW | bO | bP.

Arguments bOnePort {A}.
Arguments bVoltageSource {A}.
Arguments bCurrentSource {A}.
Arguments bControlledSource {A}.
Arguments bDummy {A}.
Arguments bR {A} _.
Arguments bG {A} _.
Arguments bL {A} _ _ _ _.
Arguments bC {A} _ _ _ _.
Arguments bCPE {A} _ _.
Arguments bY {A}.
Arguments bZ {A}.
Arguments bsV {A}.
Arguments bV {A}.
Arguments bVnoise {A}.
Arguments bv {A}.
Arguments bVstep {A} _.
Arguments bVdc {A} _.
Arguments bVac {A} _ _ _.
Arguments bsI {A}.
Arguments bI {A}.
Arguments bInoise {A}.
Arguments bi {A}.
Arguments bIstep {A} _.
Arguments bIdc {A} _.
Arguments bIac {A} _ _ _.
Arguments bXtal {A} _ _ _ _.
Arguments bFerriteBead {A} _ _ _ _.
Arguments bCCVS {A}.
Arguments bCCCS {A}.
Arguments bVCVS {A}.
Arguments bVCCS {A}.
Arguments bW {A}.
Arguments bO {A}.
Arguments bP {A}.

Definition body_class {A : Type} (b : body A) : cls :=
  match b with
  | bOnePort => cOnePort | bVoltageSource => cVoltageSource
  | bCurrentSource => cCurrentSource | bControlledSource => cControlledSource
  | bDummy => cDummy
  | bR _ => cR | bG _ => cG | bL _ _ _ _ => cL | bC _ _ _ _ => cC
  | bCPE _ _ => cCPE | bY => cY | bZ => cZ
  | bsV => csV | bV => cV | bVnoise => cVnoise | bv => cv
  | bVstep _ => cVstep | bVdc _ => cVdc | bVac _ _ _ => cVac
  | bsI => csI | bI => cI | bInoise => cInoise | bi => ci
  | bIstep _ => cIstep | bIdc _ => cIdc | bIac _ _ _ => cIac
  | bXtal _ _ _ _ => cXtal | bFerriteBead _ _ _ _ => cFerriteBead
  | bCCVS => cCCVS | bCCCS => cCCCS | bVCVS => cVCVS | bVCCS => cVCCS
  | bW => cW | bO => cO | bP => cP
  end.

(** A leaf one-port: the class attributes [_Z], [_Y], [_Voc], [_Isc]
    default to [None] and are overwritten by the constructors. *)
Record leaf (A : Type) : Type := mkLeaf {
  attrs : body A;
  _Z : option (quantity A);
  _Y : option (quantity A);
  _Voc : option (quantity A);
  _Isc : option (quantity A)
}.
Arguments mkLeaf {A} _ _ _ _ _.
Arguments attrs {A} _.
Arguments _Z {A} _.
Arguments _Y {A} _.
Arguments _Voc {A} _.
Arguments _Isc {A} _.

(** A one-port network: a leaf, or the [args] of a [Par] or [Ser]. *)
#[local] Unset Elimination Schemes.
Inductive oneport (A : Type) : Type :=
| Leaf (l : leaf A)
| Par (args : list (oneport A))
| Ser (args : list (oneport A)).
#[local] Set Elimination Schemes.
Arguments Leaf {A} l.
Arguments Par {A} args.
Arguments Ser {A} args.

Definition class_of {A : Type} (n : oneport A) : cls :=
  match n with
  | Leaf l => body_class (attrs l)
  | Par _ => cPar
  | Ser _ => cSer
  end.

Definition isinstance {A : Type} (n : oneport A) (c : cls) : bool :=
  issubclass (class_of n) c.

(** [arg.args] of a composite. *)
Definition args_of {A : Type} (n : oneport A) : list (oneport A) :=
  match n with
  | Leaf _ => []
  | Par args | Ser args => args
  end.

(** ** The expression engine

    What oneport.py asks of the symbolic layer: integer literals, the
    arithmetic operators, [==], the symbols [s], [t], [j] and [omega],
    the expression constructors, the product and the quotient of
    quantities of different kinds, the domain queries and transforms
    that [thevenin]/[norton] use, [cpt] (a quantity turned into a
    component) and the network solver behind [ParSer.Voc]/[ParSer.Isc].
    The quotient, [cpt] and the solver may raise, and so return a
    [result]; the sum of two quantities of different kinds raises the
    engine's [add_error].  The conversions of values are taken total: a
    value the engine cannot parse is its own error, raised before any
    code of oneport.py runs on it. *)

Class Engine : Type := {
  sym : Type;
  snum : Z -> sym;
  shalf : sym;
  sadd : sym -> sym -> sym;
  smul : sym -> sym -> sym;
  sdiv : sym -> sym -> sym;
  sneg : sym -> sym;
  spow : sym -> sym -> sym;
  seqb : sym -> sym -> bool;
  sym_s : sym;
  sym_t : sym;
  sym_j : sym;
  sym_omega : sym;
  Expr : sym -> sym;
  cExpr : sym -> sym;
  sExpr : sym -> sym;
  tExpr : sym -> sym;
  Vs : sym -> sym;
  Is : sym -> sym;
  Vconst_dc : sym -> sym;
  Iconst_dc : sym -> sym;
  Vphasor_ac : sym -> sym -> sym;
  Iphasor_ac : sym -> sym -> sym;
  noise_Vn : sym -> option nat -> sym;
  noise_In : sym -> option nat -> sym;
  Heaviside : sym -> sym;
  exp : sym -> sym;
  (* [a * b] and [a / b] on quantities; the quotient raises for the
     kinds that the wrappers do not divide *)
  q_mul : quantity sym -> quantity sym -> quantity sym;
  q_div : quantity sym -> quantity sym -> result (quantity sym);
  (* the exception of [a + b] on quantities of different kinds *)
  add_error : qtag -> qtag -> error;
  (* domain queries and transforms *)
  is_superposition : quantity sym -> bool;
  is_real : quantity sym -> bool;
  is_ac : quantity sym -> bool;
  is_dc : quantity sym -> bool;
  ac_key0 : quantity sym -> sym;
  q_subs : quantity sym -> sym -> quantity sym;
  q_select : quantity sym -> sym -> quantity sym;
  q_call0 : quantity sym -> quantity sym;
  q_laplace : quantity sym -> quantity sym;
  cpt : quantity sym -> result (oneport sym);
  (* [Voltage(net)] and [Current(net)] for a network argument *)
  Voltage_net : oneport sym -> result (quantity sym);
  Current_net : oneport sym -> result (quantity sym);
  (* [self.cct.Voc(1, 0)] and [self.cct.Isc(1, 0)] *)
  cct_Voc : oneport sym -> result (quantity sym);
  cct_Isc : oneport sym -> result (quantity sym)
}.

Section Model.

Context {E : Engine}.

Local Abbreviation Q := (quantity sym).
Local Abbreviation leaf' := (leaf sym).
Local Abbreviation net := (oneport sym).

Definition Impedance (x : sym) : Q := mkq TImpedance x.
Definition Admittance (x : sym) : Q := mkq TAdmittance x.
Definition Voltage (x : sym) : Q := mkq TVoltage x.
Definition Current (x : sym) : Q := mkq TCurrent x.

(** [q == 0] and [a != b]. *)
Definition q_eq0 (q : Q) : bool := seqb (qval q) (snum 0).
Definition sneb (a b : sym) : bool := negb (seqb a b).

(** Modelled from the spec: the wrappers "support arithmetic preserving
    the tag", and their arithmetic is "closed under same-type
    combination".  So [1 / q] is a quantity of the kind of [q] (the [_Z]
    that [G] and [Y] store as [1 / Admittance(..)] is of the kind
    [Admittance]), [0 + q] likewise, and [a + b] is a quantity of the
    kind of [a] and [b] when they are of one kind and raises when they
    are not. *)
Definition q_recip (q : Q) : Q := mkq (qtag_of q) (sdiv (snum 1) (qval q)).

Definition q_radd0 (q : Q) : Q := mkq (qtag_of q) (sadd (snum 0) (qval q)).

Definition q_add (a b : Q) : result Q :=
  if bool_decide (qtag_of a = qtag_of b)
  then Ok (mkq (qtag_of a) (sadd (qval a) (qval b)))
  else Err (add_error (qtag_of a) (qtag_of b)).

(** ** Leaf constructors ([__init__] of each class) *)

(** An instance of a class whose [__init__] stores nothing: the base
    classes [OnePort], [VoltageSource], [CurrentSource],
    [ControlledSource] and [Dummy]. *)
Definition blank (b : body sym) : leaf' := mkLeaf b None None None None.

Definition R_init (Rval : sym) : leaf' :=
  let _R := cExpr Rval in
  mkLeaf (bR _R) (Some (Impedance _R)) None None None.

Definition G_init (Gval : sym) : leaf' :=
  let _G := cExpr Gval in
  mkLeaf (bG _G) (Some (q_recip (Admittance _G))) None None None.

Definition L_init (Lval : sym) (i0 : option sym) : leaf' :=
  let hasic := bool_decide (i0 <> None) in
  let i0 := default (snum 0) i0 in
  let Lval := cExpr Lval in
  let i0 := cExpr i0 in
  mkLeaf (bL Lval i0 hasic (seqb i0 (snum 0)))
         (Some (Impedance (smul sym_s Lval)))
         None
         (Some (Voltage (sneg (Vs (smul i0 Lval)))))
         None.

Definition C_init (Cval : sym) (v0 : option sym) : leaf' :=
  let hasic := bool_decide (v0 <> None) in
  let v0 := default (snum 0) v0 in
  let Cval := cExpr Cval in
  let v0 := cExpr v0 in
  mkLeaf (bC Cval v0 hasic (seqb v0 (snum 0)))
         (Some (Impedance (sdiv (snum 1) (smul sym_s Cval))))
         None
         (Some (Voltage (sdiv (Vs v0) sym_s)))
         None.

Definition CPE_init (K : sym) (alpha : option sym) : leaf' :=
  let alpha := default shalf alpha in
  let K := cExpr K in
  let alpha := cExpr alpha in
  mkLeaf (bCPE K alpha)
         (Some (Impedance (sdiv (snum 1) (smul (spow sym_s alpha) K))))
         None None None.

Definition Y_init (Yval : sym) : leaf' :=
  let Yval := Admittance Yval in
  mkLeaf bY (Some (q_recip Yval)) None None None.

Definition Z_init (Zval : sym) : leaf' :=
  let Zval := Impedance Zval in
  mkLeaf bZ (Some Zval) None None None.

Definition sV_init (Vval : sym) : leaf' :=
  let Vval := sExpr Vval in
  mkLeaf bsV None None (Some (Voltage (Vs Vval))) None.

Definition V_init (Vval : sym) : leaf' :=
  mkLeaf bV None None (Some (Voltage Vval)) None.

Definition Vstep_init (v : sym) : leaf' :=
  let v := cExpr v in
  mkLeaf (bVstep v) None None
         (Some (Voltage (smul (tExpr v) (Heaviside sym_t)))) None.

Definition Vdc_init (v : sym) : leaf' :=
  let v := cExpr v in
  mkLeaf (bVdc v) None None (Some (Voltage (Vconst_dc v))) None.

Definition Vac_init (V : sym) (phi omega : option sym) : leaf' :=
  let phi := default (snum 0) phi in
  let omega := match omega with None => sym_omega | Some w => Expr w end in
  let V := Expr V in
  let phi := Expr phi in
  mkLeaf (bVac omega V phi) None None
         (Some (Voltage (Vphasor_ac (smul V (exp (smul sym_j phi))) omega)))
         None.

Definition Vnoise_init (V : sym) (nid : option nat) : leaf' :=
  let V1 := noise_Vn V nid in
  mkLeaf bVnoise None None (Some (Voltage V1)) None.

Definition v_init (vval : sym) : leaf' :=
  let Vval := tExpr vval in
  mkLeaf bv None None (Some (Voltage Vval)) None.

Definition sI_init (Ival : sym) : leaf' :=
  let Ival := sExpr Ival in
  mkLeaf bsI None None None (Some (Current (Is Ival))).

Definition I_init (Ival : sym) : leaf' :=
  mkLeaf bI None None None (Some (Current Ival)).

Definition Istep_init (i : sym) : leaf' :=
  let i := cExpr i in
  mkLeaf (bIstep i) None None None
         (Some (Current (smul (tExpr i) (Heaviside sym_t)))).

Definition Idc_init (i : sym) : leaf' :=
  let i := cExpr i in
  mkLeaf (bIdc i) None None None (Some (Current (Iconst_dc i))).

Definition Iac_init (I : sym) (phi omega : option sym) : leaf' :=
  let phi := default (snum 0) phi in
  let omega := match omega with None => sym_omega | Some w => Expr w end in
  let I := Expr I in
  let phi := Expr phi in
  mkLeaf (bIac omega I phi) None None None
         (Some (Current (Iphasor_ac (smul I (exp (smul sym_j phi))) omega))).

Definition Inoise_init (I : sym) (nid : option nat) : leaf' :=
  let I1 := noise_In I nid in
  mkLeaf bInoise None None None (Some (Current I1)).

Definition i_init (ival : sym) : leaf' :=
  let Ival := tExpr ival in
  mkLeaf bi None None None (Some (Current Ival)).

(** The controlled sources ignore their [control] and [value]. *)
Definition CCVS_init : leaf' :=
  mkLeaf bCCVS (Some (Impedance (snum 0))) None (Some (Voltage (snum 0))) None.
Definition CCCS_init : leaf' :=
  mkLeaf bCCCS None (Some (Admittance (snum 0))) None (Some (Current (snum 0))).
Definition VCVS_init : leaf' :=
  mkLeaf bVCVS (Some (Impedance (snum 0))) None (Some (Voltage (snum 0))) None.
Definition VCCS_init : leaf' :=
  mkLeaf bVCCS None (Some (Admittance (snum 0))) None (Some (Current (snum 0))).

Definition W_init : leaf' := mkLeaf bW (Some (Impedance (snum 0))) None None None.
Definition O_init : leaf' := mkLeaf bO None (Some (Admittance (snum 0))) None None.
Definition P_init : leaf' := mkLeaf bP None (Some (Admittance (snum 0))) None None.

(** ** The derived-quantity resolver ([OnePort] properties) *)

Definition undefined_msg : string := "_Isc, _Voc, _Y, or _Z undefined"%string.

Definition OnePort_impedance (self : leaf') : result Q :=
  match _Z self with
  | Some z => Ok z
  | None =>
  match _Y self with
  | Some y => Ok (Impedance (qval (q_recip y)))
  | None =>
  match _Voc self with
  | Some _ => Ok (Impedance (snum 0))
  | None =>
  match _Isc self with
  | Some _ => Ok (Impedance (qval (q_recip (Admittance (snum 0)))))
  | None => Err (ValueError undefined_msg)
  end end end end.

Definition OnePort_admittance (_Y : option Q) (impedance : result Q) : result Q :=
  match _Y with
  | Some y => Ok y
  | None => z ← impedance; Ok (Admittance (qval (q_recip z)))
  end.

Definition OnePort_Voc (self : leaf') : result Q :=
  match _Voc self with
  | Some v => Ok v
  | None =>
  match _Isc self with
  | Some i => z ← OnePort_impedance self; Ok (q_mul i z)
  | None =>
  match _Z self with
  | Some _ => Ok (Voltage (snum 0))
  | None =>
  match _Y self with
  | Some _ => Ok (Current (snum 0))
  | None => Err (ValueError undefined_msg)
  end end end end.

Definition OnePort_Isc (self : leaf') : result Q :=
  match _Isc self with
  | Some i => Ok i
  | None => v ← OnePort_Voc self; z ← OnePort_impedance self; q_div v z
  end.

(** ** Composite constructors

    [_check_oneport_args] rejects arguments that are not [OnePort]
    instances; every [net] is one.  The warnings are what [__init__]
    prints when it does not raise. *)

Inductive warning : Type := Redundant (component source : net).

Section PairScan.
Variable source_cls : cls.
Variable msg : string.

(** [for arg2 in self.args[n + 1:]] *)
Fixpoint check_pairs_from (arg1 : net) (rest : list net) : result (list warning) :=
  match rest with
  | [] => Ok []
  | arg2 :: rest' =>
      if isinstance arg1 source_cls && isinstance arg2 source_cls then
        Err (ValueError msg)
      else
        ws ← check_pairs_from arg1 rest';
        if isinstance arg1 source_cls then Ok (Redundant arg2 arg1 :: ws)
        else if isinstance arg2 source_cls then Ok (Redundant arg1 arg2 :: ws)
        else Ok ws
  end.

(** [for n, arg1 in enumerate(self.args)] *)
Fixpoint check_pairs (args : list net) : result (list warning) :=
  match args with
  | [] => Ok []
  | arg1 :: rest =>
      ws1 ← check_pairs_from arg1 rest;
      ws2 ← check_pairs rest;
      Ok (ws1 ++ ws2)
  end.
End PairScan.

Definition Par_warnings (args : list net) : result (list warning) :=
  check_pairs cV "Voltage sources connected in parallel"%string args.

Definition Ser_warnings (args : list net) : result (list warning) :=
  check_pairs cI "Current sources connected in series"%string args.

Definition Par_init (args : list net) : result net :=
  _ ← Par_warnings args; Ok (Par args).

Definition Ser_init (args : list net) : result net :=
  _ ← Ser_warnings args; Ok (Ser args).

(** The constructor call on [self.__class__] inside a [ParSer] method. *)
Definition ParSer_init (k : cls) (args : list net) : result net :=
  match k with
  | cPar => Par_init args
  | cSer => Ser_init args
  | _ => Err (TypeError "Undefined class"%string)
  end.

(** ** Impedance and admittance of a network *)

(** [X += arg.quantity]: [X] is the number [0] ([None]) until the first
    quantity is added to it, and a quantity from then on. *)
Definition sum_step (acc : result (option Q)) (r : result Q) : result (option Q) :=
  X ← acc;
  x ← r;
  match X with
  | None => Ok (Some (q_radd0 x))
  | Some X => X ← q_add X x; Ok (Some X)
  end.

(** What the wrapper applied to the sum reads of it. *)
Definition sum_value (X : option Q) : sym :=
  match X with
  | None => snum 0
  | Some X => qval X
  end.

(** [X = 0; for arg in self.args: X += arg.quantity]. *)
Definition sum_loop (vals : list (result Q)) : result sym :=
  X ← fold_left sum_step vals (Ok None); Ok (sum_value X).

Definition Ser_impedance (child_impedances : list (result Q)) : result Q :=
  Z ← sum_loop child_impedances; Ok (Impedance Z).

Definition Par_admittance (child_admittances : list (result Q)) : result Q :=
  Y ← sum_loop child_admittances; Ok (Admittance Y).

Definition Par_impedance (admittance : result Q) : result Q :=
  y ← admittance; Ok (Impedance (qval (q_recip y))).

(** Property dispatch.  [Ser] defines a property named [Admittance], not
    [admittance]: its [admittance] is the inherited [OnePort.admittance],
    with [_Y] unset. *)
Fixpoint impedance (n : net) : result Q :=
  match n with
  | Leaf l => OnePort_impedance l
  | Ser args => Ser_impedance (map impedance args)
  | Par args => Par_impedance (Par_admittance (map admittance args))
  end
with admittance (n : net) : result Q :=
  match n with
  | Leaf l => OnePort_admittance (_Y l) (OnePort_impedance l)
  | Ser args => OnePort_admittance None (Ser_impedance (map impedance args))
  | Par args => Par_admittance (map admittance args)
  end.

Definition Voc (n : net) : result Q :=
  match n with
  | Leaf l => OnePort_Voc l
  | Par _ | Ser _ => cct_Voc n
  end.

Definition Isc (n : net) : result Q :=
  match n with
  | Leaf l => OnePort_Isc l
  | Par _ | Ser _ => cct_Isc n
  end.

(** [OnePort.V], [OnePort.I] and the override [CurrentSource.I]. *)
Definition OnePort_V (n : net) : result Q := Voc n.
Definition OnePort_I (n : net) : result Q := Ok (Current (snum 0)).
Definition CurrentSource_I (n : net) : result Q := Isc n.

Definition get_V (n : net) : result Q := OnePort_V n.
Definition get_I (n : net) : result Q :=
  if isinstance n cCurrentSource then CurrentSource_I n else OnePort_I n.
(** ** Compound components and [expand] *)

(** [sequence rs]: the values of [rs], or the first error in list order
    (a Python loop over calls that may raise). *)
Fixpoint sequence {A : Type} (rs : list (result A)) : result (list A) :=
  match rs with
  | [] => Ok []
  | r :: rs' => a ← r; l ← sequence rs'; Ok (a :: l)
  end.

(** [(R(self.R1) + L(self.L1) + C(self.C1)) | C(self.C0)] *)
Definition Xtal_expand (C0 R1 L1 C1 : sym) : result net :=
  rl ← Ser_init [Leaf (R_init R1); Leaf (L_init L1 None)];
  rlc ← Ser_init [rl; Leaf (C_init C1 None)];
  Par_init [rlc; Leaf (C_init C0 None)].

(** [R(self.Rs) + (R(self.Rp) + L(self.Lp) + C(self.Cp))] *)
Definition FerriteBead_expand (Rs Rp Cp Lp : sym) : result net :=
  let rs := Leaf (R_init Rs) in
  rl ← Ser_init [Leaf (R_init Rp); Leaf (L_init Lp None)];
  rlc ← Ser_init [rl; Leaf (C_init Cp None)];
  Ser_init [rs; rlc].

Definition Xtal_init (C0 R1 L1 C1 : sym) : result leaf' :=
  let C0 := cExpr C0 in
  let R1 := cExpr R1 in
  let L1 := cExpr L1 in
  let C1 := cExpr C1 in
  n ← Xtal_expand C0 R1 L1 C1;
  z ← impedance n;
  Ok (mkLeaf (bXtal C0 R1 L1 C1) (Some z) None None None).

Definition FerriteBead_init (Rs Rp Cp Lp : sym) : result leaf' :=
  let Rs := cExpr Rs in
  let Rp := cExpr Rp in
  let Cp := cExpr Cp in
  let Lp := cExpr Lp in
  n ← FerriteBead_expand Rs Rp Cp Lp;
  z ← impedance n;
  Ok (mkLeaf (bFerriteBead Rs Rp Cp Lp) (Some z) None None None).

(** [OnePort.expand] returns [self]; [Xtal] and [FerriteBead] override
    it; [ParSer.expand] expands the arguments and rebuilds the node. *)
Fixpoint expand (n : net) : result net :=
  match n with
  | Leaf l =>
      match attrs l with
      | bXtal C0 R1 L1 C1 => Xtal_expand C0 R1 L1 C1
      | bFerriteBead Rs Rp Cp Lp => FerriteBead_expand Rs Rp Cp Lp
      | _ => Ok n
      end
  | Par args => newargs ← sequence (map expand args); Par_init newargs
  | Ser args => newargs ← sequence (map expand args); Ser_init newargs
  end.

(** No [Par] node anywhere in the tree. *)
Fixpoint has_no_Par (n : net) : bool :=
  match n with
  | Leaf _ => true
  | Par _ => false
  | Ser args => forallb has_no_Par args
  end.

(** ** [ParSer._combine] *)

(** Attribute reads, by name. *)
Definition attr_of (name : string) (get : body sym -> option sym) (n : net) : result sym :=
  match n with
  | Leaf l =>
      match get (attrs l) with
      | Some x => Ok x
      | None => Err (AttributeError name)
      end
  | _ => Err (AttributeError name)
  end.

Definition get_v0 : net -> result sym :=
  attr_of "v0"%string (fun b => match b with
                         | bVstep v0 | bVdc v0 | bVac _ v0 _ | bC _ v0 _ _ => Some v0
                         | _ => None end).
Definition get_i0 : net -> result sym :=
  attr_of "i0"%string (fun b => match b with
                         | bIstep i0 | bIdc i0 | bIac _ i0 _ | bL _ i0 _ _ => Some i0
                         | _ => None end).
Definition get__R : net -> result sym :=
  attr_of "_R"%string (fun b => match b with bR r => Some r | _ => None end).
Definition get__G : net -> result sym :=
  attr_of "_G"%string (fun b => match b with bG g => Some g | _ => None end).
Definition get_L : net -> result sym :=
  attr_of "L"%string (fun b => match b with bL l _ _ _ => Some l | _ => None end).
Definition get_C : net -> result sym :=
  attr_of "C"%string (fun b => match b with bC c _ _ _ => Some c | _ => None end).
Definition get_hasic (n : net) : result bool :=
  match n with
  | Leaf l =>
      match attrs l with
      | bL _ _ hasic _ | bC _ _ hasic _ => Ok hasic
      | _ => Err (AttributeError "hasic"%string)
      end
  | _ => Err (AttributeError "hasic"%string)
  end.

(** [isinstance(arg, classes) and arg.quantity == 0] *)
Definition degenerate (classes : list cls) (quantity : net -> result Q) (arg : net)
  : result bool :=
  if existsb (isinstance arg) classes then q ← quantity arg; Ok (q_eq0 q)
  else Ok false.

(** The branch for arguments of different classes; [None] when no rule
    of the block applies. *)
Definition combine_cross_Ser (arg1 arg2 : net) : result (option net) :=
  d ← degenerate [cV] Voc arg1;
  if d : bool then Ok (Some arg2) else
  d ← degenerate [cV] Voc arg2;
  if d : bool then Ok (Some arg1) else
  d ← degenerate [cR; cZ] impedance arg1;
  if d : bool then Ok (Some arg2) else
  d ← degenerate [cR; cZ] impedance arg2;
  if d : bool then Ok (Some arg1) else
  Ok None.

Definition combine_cross_Par (arg1 arg2 : net) : result (option net) :=
  d ← degenerate [cI] Isc arg1;
  if d : bool then Ok (Some arg2) else
  d ← degenerate [cI] Isc arg2;
  if d : bool then Ok (Some arg1) else
  d ← degenerate [cY; cG] admittance arg1;
  if d : bool then Ok (Some arg2) else
  d ← degenerate [cY; cG] admittance arg2;
  if d : bool then Ok (Some arg1) else
  Ok None.

Definition L_conflict_msg : string :=
  "Series inductors with different initial currents!"%string.
Definition C_conflict_msg : string :=
  "Parallel capacitors with different initial voltages!"%string.

(** Arguments of one class, in a [Ser]. *)
Definition combine_same_Ser (arg1 arg2 : net) : result (option net) :=
  if isinstance arg1 cI then Ok None
  else if isinstance arg1 cVdc then
    a ← get_v0 arg1; b ← get_v0 arg2;
    Ok (Some (Leaf (Vdc_init (sadd a b))))
  else if isinstance arg1 cV then
    sum ← Ser_init [arg1; arg2];
    q ← Voltage_net sum;
    Ok (Some (Leaf (mkLeaf bV None None (Some q) None)))
  else if isinstance arg1 cR then
    a ← get__R arg1; b ← get__R arg2;
    Ok (Some (Leaf (R_init (sadd a b))))
  else if isinstance arg1 cL then
    i1 ← get_i0 arg1; i2 ← get_i0 arg2;
    h1 ← get_hasic arg1; h2 ← get_hasic arg2;
    if sneb i1 i2 || negb (eqb h1 h2) then Err (ValueError L_conflict_msg)
    else
      let i0 := if h1 then Some i1 else None in
      l1 ← get_L arg1; l2 ← get_L arg2;
      Ok (Some (Leaf (L_init (sadd l1 l2) i0)))
  else if isinstance arg1 cG then
    a ← get__G arg1; b ← get__G arg2;
    Ok (Some (Leaf (G_init (sdiv (smul a b) (sadd a b)))))
  else if isinstance arg1 cC then
    h1 ← get_hasic arg1; h2 ← get_hasic arg2;
    v1 ← get_v0 arg1; v2 ← get_v0 arg2;
    let v0 := if h1 || h2 then Some (sadd v1 v2) else None in
    c1 ← get_C arg1; c2 ← get_C arg2;
    Ok (Some (Leaf (C_init (sdiv (smul c1 c2) (sadd c1 c2)) v0)))
  else Ok None.

(** Arguments of one class, in a [Par]. *)
Definition combine_same_Par (arg1 arg2 : net) : result (option net) :=
  if isinstance arg1 cV then Ok None
  else if isinstance arg1 cIdc then
    a ← get_i0 arg1; b ← get_i0 arg2;
    Ok (Some (Leaf (Idc_init (sadd a b))))
  else if isinstance arg1 cI then
    sum ← Ser_init [arg1; arg2];
    q ← Current_net sum;
    Ok (Some (Leaf (mkLeaf bI None None None (Some q))))
  else if isinstance arg1 cG then
    a ← get__G arg1; b ← get__G arg2;
    Ok (Some (Leaf (G_init (sadd a b))))
  else if isinstance arg1 cC then
    v1 ← get_v0 arg1; v2 ← get_v0 arg2;
    h1 ← get_hasic arg1; h2 ← get_hasic arg2;
    if sneb v1 v2 || negb (eqb h1 h2) then Err (ValueError C_conflict_msg)
    else
      let v0 := if h1 then Some v1 else None in
      c1 ← get_C arg1; c2 ← get_C arg2;
      Ok (Some (Leaf (C_init (sadd c1 c2) v0)))
  else if isinstance arg1 cR then
    a ← get__R arg1; b ← get__R arg2;
    Ok (Some (Leaf (R_init (sdiv (smul a b) (sadd a b)))))
  else if isinstance arg1 cL then
    h1 ← get_hasic arg1; h2 ← get_hasic arg2;
    i1 ← get_i0 arg1; i2 ← get_i0 arg2;
    let i0 := if h1 || h2 then Some (sadd i1 i2) else None in
    l1 ← get_L arg1; l2 ← get_L arg2;
    Ok (Some (Leaf (L_init (sdiv (smul l1 l2) (sadd l1 l2)) i0)))
  else Ok None.

(** [self._combine(arg1, arg2)], [self_cls] being [self.__class__]; the
    value [None] says that the pair does not combine. *)
Definition _combine (self_cls : cls) (arg1 arg2 : net) : result (option net) :=
  if bool_decide (class_of arg1 <> class_of arg2) then
    r ← (if bool_decide (self_cls = cSer) then combine_cross_Ser arg1 arg2
         else Ok None);
    match r with
    | Some newarg => Ok (Some newarg)
    | None =>
        if bool_decide (self_cls = cPar) then combine_cross_Par arg1 arg2
        else Ok None
    end
  else if bool_decide (self_cls = cSer) then combine_same_Ser arg1 arg2
  else if bool_decide (self_cls = cPar) then combine_same_Par arg1 arg2
  else Err (TypeError "Undefined class"%string).

(** ** [ParSer.simplify] *)

Section Flatten.
(** [simp] is [arg.simplify(deep)], [self_cls] is [self.__class__]. *)
Variable simp : net -> result net.
Variable self_cls : cls.

(** The first loop: simplify the composite arguments and splice in
    those of the class of [self]. *)
Fixpoint flatten_loop (args : list net) (new : bool) (newargs : list net)
  : result (bool * list net) :=
  match args with
  | [] => Ok (new, newargs)
  | arg :: rest =>
      if isinstance arg cParSer then
        arg ← simp arg;
        if bool_decide (class_of arg = self_cls)
        then flatten_loop rest true (newargs ++ args_of arg)
        else flatten_loop rest true (newargs ++ [arg])
      else flatten_loop rest new (newargs ++ [arg])
  end.
End Flatten.

(** [for m in range(n + 1, len(args))]: [count] iterations from index
    [m]; an entry [None] of [args] is an argument already combined. *)
Fixpoint scan_inner (self_cls : cls) (count m : nat) (arg1 : net)
    (args : list (option net)) (new : bool)
  : result (net * list (option net) * bool) :=
  match count with
  | O => Ok (arg1, args, new)
  | S count' =>
      match args !! m with
      | Some (Some arg2) =>
          if isinstance arg2 cParSer then
            scan_inner self_cls count' (S m) arg1 args new
          else
            newarg ← _combine self_cls arg1 arg2;
            match newarg with
            | Some newarg =>
                scan_inner self_cls count' (S m) newarg (<[m := None]> args) true
            | None => scan_inner self_cls count' (S m) arg1 args new
            end
      | Some None => scan_inner self_cls count' (S m) arg1 args new
      | None => Ok (arg1, args, new)
      end
  end.

(** [for n in range(len(args))]: [count] iterations from index [n]. *)
Fixpoint scan_outer (self_cls : cls) (count n : nat)
    (args : list (option net)) (new : bool)
  : result (list (option net) * bool) :=
  match count with
  | O => Ok (args, new)
  | S count' =>
      match args !! n with
      | Some (Some arg1) =>
          if isinstance arg1 cParSer then
            scan_outer self_cls count' (S n) args new
          else
            '(arg1, args, new) ← scan_inner self_cls (length args - S n) (S n) arg1 args new;
            scan_outer self_cls count' (S n) (<[n := Some arg1]> args) new
      | Some None => scan_outer self_cls count' (S n) args new
      | None => Ok (args, new)
      end
  end.

(** What follows the first loop: rebuild [self] when an argument was
    simplified, scan for pairs that combine, and rebuild again (or
    return the single argument left) when a pair was combined. *)
Definition simplify_scan (self_cls : cls) (self : net) (new : bool)
    (newargs : list net) : result net :=
  self ← (if new then ParSer_init self_cls newargs else Ok self);
  let args := map Some (args_of self) in
  '(args, new) ← scan_outer self_cls (length args) 0 args false;
  if new : bool then
    let args := omap id args in
    match args with
    | [arg] => Ok arg
    | _ => ParSer_init self_cls args
    end
  else Ok self.

(** Modelled from the spec: [simplify] on a leaf is [Network.simplify]
    (lcapy/network.py, which oneport.py imports); a leaf has nothing to
    flatten or to combine and is returned as it is. *)
Fixpoint simplify (deep : bool) (n : net) : result net :=
  match n with
  | Leaf _ => Ok n
  | Par args =>
      '(new, newargs) ← flatten_loop (simplify deep) cPar args false [];
      simplify_scan cPar n new newargs
  | Ser args =>
      '(new, newargs) ← flatten_loop (simplify deep) cSer args false [];
      simplify_scan cSer n new newargs
  end.

(** ** Thevenin and Norton equivalents *)

(** The four-way choice of domain on the source quantity [X] ([Voc] or
    [Isc]) and the immittance [W] ([impedance] or [admittance]): the
    pair ([W1], [X1]).  The warning printed in the first case is not
    modelled. *)
Definition resolve_domain (X W : Q) : Q * Q :=
  if is_superposition X && negb (is_real W) then (W, q_laplace X)
  else if is_ac X then
    (q_subs W (smul sym_j (ac_key0 X)), q_select X (ac_key0 X))
  else if is_dc X then (q_subs W (snum 0), q_call0 X)
  else (W, X).

Definition thevenin (self : net) : result net :=
  new ← simplify true self;
  Voc ← Voc new;
  Z ← impedance new;
  let '(Z1, V1) := resolve_domain Voc Z in
  V1 ← cpt V1;
  Z1 ← cpt Z1;
  if q_eq0 Voc then Ok Z1
  else if q_eq0 Z then Ok V1
  else Ser_init [Z1; V1].

Definition norton (self : net) : result net :=
  new ← simplify true self;
  Isc ← Isc new;
  Y ← admittance new;
  let '(Y1, I1) := resolve_domain Isc Y in
  I1 ← cpt I1;
  Y1 ← cpt Y1;
  if q_eq0 Isc then Ok Y1
  else if q_eq0 Y then Ok I1
  else Par_init [Y1; I1].

(** ** Notions used to state the properties *)

(** How many of [args] are instances of the class [c]. *)
Fixpoint count_instances (c : cls) (args : list net) : nat :=
  match args with
  | [] => 0
  | arg :: rest => (if isinstance arg c then 1 else 0) + count_instances c rest
  end.

(** The kind of the first quantity of [qs] that is not of the kind
    [k]. *)
Fixpoint first_other_kind (k : qtag) (qs : list Q) : option qtag :=
  match qs with
  | [] => None
  | q :: rest =>
      if bool_decide (qtag_of q = k) then first_other_kind k rest
      else Some (qtag_of q)
  end.

(** The sum of a list of quantities, in the words of the documentation:
    quantities of one kind add up to the sum of their values, taken
    from 0, left to right; with a quantity of another kind among them
    there is no sum, and the addition of the first such quantity to
    those before it is what raises. *)
Definition quantity_sum (qs : list Q) : result sym :=
  match qs with
  | [] => Ok (snum 0)
  | q :: rest =>
      match first_other_kind (qtag_of q) rest with
      | None => Ok (fold_left sadd (map qval qs) (snum 0))
      | Some k => Err (add_error (qtag_of q) k)
      end
  end.

(** The sum of the children's quantities: the quantity of every child
    is read (the first failure, in the order of the arguments, is the
    failure of the sum) and the quantities are added up. *)
Definition children_sum (quantity : net -> result Q) (args : list net) : result sym :=
  qs ← sequence (map quantity args);
  quantity_sum qs.

(** The stored immittances of a leaf are of their own kinds: [_Z], if
    set, is an [Impedance] and [_Y], if set, an [Admittance]. *)
Definition own_kinds (l : leaf') : bool :=
  match _Z l with
  | Some z => bool_decide (qtag_of z = TImpedance)
  | None => true
  end &&
  match _Y l with
  | Some y => bool_decide (qtag_of y = TAdmittance)
  | None => true
  end.

(** A leaf with at least one of [_Z], [_Y], [_Voc], [_Isc] set, as every
    constructor of a concrete class leaves it. *)
Definition resolvable (l : leaf') : bool :=
  match _Z l, _Y l, _Voc l, _Isc l with
  | None, None, None, None => false
  | _, _, _, _ => true
  end.

(** The quantity reads as a value that compares equal to 0. *)
Definition reads_zero (quantity : net -> result Q) (n : net) : Prop :=
  exists q, quantity n = Ok q /\ q_eq0 q = true.

(** The degenerate elements: in a series, a [V] of zero voltage and an
    [R] or a [Z] of zero impedance; in a parallel, an [I] of zero
    current and a [Y] or a [G] of zero admittance. *)
Definition degenerate_in_Ser (n : net) : Prop :=
  (class_of n = cV /\ reads_zero Voc n) \/
  ((class_of n = cR \/ class_of n = cZ) /\ reads_zero impedance n).

Definition degenerate_in_Par (n : net) : Prop :=
  (class_of n = cI /\ reads_zero Isc n) \/
  ((class_of n = cY \/ class_of n = cG) /\ reads_zero admittance n).

(** What [simplify] makes of a composite [self] of two leaves, given
    the outcome of [_combine] on them. *)
Definition pair_outcome (self : net) (r : result (option net)) : result net :=
  match r with
  | Ok (Some newarg) => Ok newarg
  | Ok None => Ok self
  | Err e => Err e
  end.

End Model.

(** ** A concrete engine on the extended rationals

    Constant expressions only, as sympy evaluates them: a rational
    number or [zoo] (complex infinity, the value of [1/0]), written
    [None].  The symbols [s], [t] and [omega] are evaluated at 1, there
    is no imaginary part, no AC, DC or superposition domain, and the
    transforms are the identity.  A voltage divides by an impedance and
    a current by an admittance, every other quotient raising, and every
    quantity has its component.  It serves to run the model on the
    examples of the documentation and of the tests. *)

Module Rat.

Definition xrat : Type := option Qc.

Definition num (n : Z) : xrat := Some (Q2Qc (inject_Z n)).
Definition frac (n : Z) (d : positive) : xrat := Some (Q2Qc (Qmake n d)).

Definition add (a b : xrat) : xrat :=
  match a, b with
  | Some x, Some y => Some (x + y)%Qc
  | _, _ => None
  end.

Definition mul (a b : xrat) : xrat :=
  match a, b with
  | Some x, Some y => Some (x * y)%Qc
  | _, _ => None
  end.

Definition is_zero (x : Qc) : bool := Qeq_bool (this x) 0.

Definition div (a b : xrat) : xrat :=
  match a, b with
  | Some x, Some y => if is_zero y then None else Some (x / y)%Qc
  | Some _, None => num 0
  | None, _ => None
  end.

Definition neg (a : xrat) : xrat :=
  match a with
  | Some x => Some (- x)%Qc
  | None => None
  end.

Definition pow (a b : xrat) : xrat :=
  match a, b with
  | Some x, Some y => Some (Qcpower x (Z.to_nat (Qnum (this y) / Zpos (Qden (this y)))))
  | _, _ => None
  end.

Definition eqb (a b : xrat) : bool :=
  match a, b with
  | Some x, Some y => Qeq_bool (this x) (this y)
  | None, None => true
  | _, _ => false
  end.

Definition recip (q : quantity xrat) : quantity xrat :=
  mkq (qtag_of q) (div (num 1) (qval q)).

Definition qmul (a b : quantity xrat) : quantity xrat :=
  mkq (match qtag_of a, qtag_of b with
       | TCurrent, TImpedance | TImpedance, TCurrent => TVoltage
       | TVoltage, TAdmittance | TAdmittance, TVoltage => TCurrent
       | k, _ => k
       end)
      (mul (qval a) (qval b)).

(** A voltage divides by an impedance and a current by an admittance;
    every other quotient is a [TypeError]. *)
Definition qdiv (a b : quantity xrat) : result (quantity xrat) :=
  match qtag_of a, qtag_of b with
  | TVoltage, TImpedance => Ok (mkq TCurrent (div (qval a) (qval b)))
  | TCurrent, TAdmittance => Ok (mkq TVoltage (div (qval a) (qval b)))
  | _, _ => Err (TypeError "Unsupported types for /"%string)
  end.

Definition cannot_add (a b : qtag) : error :=
  ValueError "Cannot add quantities of different kinds"%string.

(** A quantity as a component: [Z], [Y], [V] or [I] of its value. *)
Definition component (q : quantity xrat) : result (oneport xrat) :=
  match qtag_of q with
  | TImpedance => Ok (Leaf (mkLeaf bZ (Some q) None None None))
  | TAdmittance => Ok (Leaf (mkLeaf bY (Some (recip q)) None None None))
  | TVoltage => Ok (Leaf (mkLeaf bV None None (Some q) None))
  | TCurrent => Ok (Leaf (mkLeaf bI None None None (Some q)))
  end.

Definition no_solver : result (quantity xrat) :=
  Err (ValueError "no network solver in the rational engine"%string).
Definition not_an_expression : result (quantity xrat) :=
  Err (TypeError "a network is not an expression"%string).

#[export] Instance engine : Engine := {|
  sym := xrat;
  snum := num;
  shalf := frac 1 2;
  sadd := add;
  smul := mul;
  sdiv := div;
  sneg := neg;
  spow := pow;
  seqb := eqb;
  sym_s := num 1;
  sym_t := num 1;
  sym_j := num 0;
  sym_omega := num 1;
  Expr := id;
  cExpr := id;
  sExpr := id;
  tExpr := id;
  Vs := id;
  Is := id;
  Vconst_dc := id;
  Iconst_dc := id;
  Vphasor_ac := fun x _ => x;
  Iphasor_ac := fun x _ => x;
  noise_Vn := fun x _ => x;
  noise_In := fun x _ => x;
  Heaviside := fun _ => num 1;
  exp := fun _ => num 1;
  q_mul := qmul;
  q_div := qdiv;
  add_error := cannot_add;
  is_superposition := fun _ => false;
  is_real := fun _ => true;
  is_ac := fun _ => false;
  is_dc := fun _ => false;
  ac_key0 := fun _ => num 1;
  q_subs := fun q _ => q;
  q_select := fun q _ => q;
  q_call0 := id;
  q_laplace := id;
  cpt := component;
  Voltage_net := fun _ => not_an_expression;
  Current_net := fun _ => not_an_expression;
  cct_Voc := fun _ => no_solver;
  cct_Isc := fun _ => no_solver
|}.

(** The one-ports of the examples. *)
Definition R0 : leaf sym := R_init (num 0).
Definition R5 : leaf sym := R_init (num 5).
Definition V0 : leaf sym := V_init (num 0).
Definition V1 : leaf sym := V_init (num 1).
Definition V2 : leaf sym := V_init (num 2).
Definition V5 : leaf sym := V_init (num 5).
Definition I1 : leaf sym := I_init (num 1).
Definition I5 : leaf sym := I_init (num 5).
Definition Z0 : leaf sym := Z_init (num 0).
Definition Z3 : leaf sym := Z_init (num 3).
Definition Vdc0 : leaf sym := Vdc_init (num 0).
Definition Vdc10 : leaf sym := Vdc_init (num 10).
Definition L10 : leaf sym := L_init (num 10) None.
Definition L5 : leaf sym := L_init (num 5) None.
Definition L10_ic0 : leaf sym := L_init (num 10) (Some (num 0)).
Definition L10_ic2 : leaf sym := L_init (num 10) (Some (num 2)).
Definition L10_ic5 : leaf sym := L_init (num 10) (Some (num 5)).

End Rat.

(** * More of oneport.py

    The remaining methods of oneport.py that can be stated over the
    engine of the first part: [s_model] and [LoadCircuit]; and the
    shapes of networks that the properties below speak of. *)

Section MoreModel.

Context {E : Engine}.

Local Abbreviation Q := (quantity sym).
Local Abbreviation leaf' := (leaf sym).
Local Abbreviation net := (oneport sym).

(** ** Shapes of networks *)

(** Every leaf of the tree satisfies [P]. *)
Fixpoint all_leaves (P : leaf' -> bool) (n : net) : bool :=
  match n with
  | Leaf l => P l
  | Par args => forallb (all_leaves P) args
  | Ser args => forallb (all_leaves P) args
  end.

(** Every composite of the tree is one that its constructor accepts: at
    most one [V] among the arguments of a [Par], at most one [I] among
    those of a [Ser]. *)
Fixpoint well_constructed (n : net) : bool :=
  match n with
  | Leaf _ => true
  | Par args => (count_instances cV args <=? 1) && forallb well_constructed args
  | Ser args => (count_instances cI args <=? 1) && forallb well_constructed args
  end.

(** No composite of the tree has an argument of its own class. *)
Fixpoint flat (n : net) : bool :=
  match n with
  | Leaf _ => true
  | Par args =>
      forallb (fun arg => flat arg && negb (bool_decide (class_of arg = cPar))) args
  | Ser args =>
      forallb (fun arg => flat arg && negb (bool_decide (class_of arg = cSer))) args
  end.

Definition Par_msg : string := "Voltage sources connected in parallel"%string.
Definition Ser_msg : string := "Current sources connected in series"%string.

(** The composite of class [k] ([cPar], else [cSer]) on [args]; and what
    makes a network fit as an argument of a flat composite of class [k],
    [G] being a further requirement on it. *)
Definition node (k : cls) (args : list net) : net :=
  match k with
  | cPar => Par args
  | _ => Ser args
  end.

Definition good_arg (G : net -> bool) (k : cls) (a : net) : Prop :=
  flat a = true /\ G a = true /\ class_of a <> k.

Definition good_entry (G : net -> bool) (k : cls) (o : option net) : Prop :=
  match o with
  | Some a => good_arg G k a
  | None => True
  end.

(** The leaves that [R], [G], [Vdc] and [Idc] construct, by the value
    they store ([R(x)] is [leaf_R (cExpr x)], and so on), and the values
    that [_combine] gives to the constructor when it merges two of
    them. *)
Definition leaf_R (r : sym) : leaf' :=
  mkLeaf (bR r) (Some (Impedance r)) None None None.
Definition leaf_G (g : sym) : leaf' :=
  mkLeaf (bG g) (Some (q_recip (Admittance g))) None None None.
Definition leaf_Vdc (v : sym) : leaf' :=
  mkLeaf (bVdc v) None None (Some (Voltage (Vconst_dc v))) None.
Definition leaf_Idc (i : sym) : leaf' :=
  mkLeaf (bIdc i) None None None (Some (Current (Iconst_dc i))).

Definition stored_sum (a b : sym) : sym := cExpr (sadd a b).
Definition stored_harmonic (a b : sym) : sym := cExpr (sdiv (smul a b) (sadd a b)).

(** The leaves that [expand] replaces. *)
Definition is_compound (l : leaf') : bool :=
  match attrs l with
  | bXtal _ _ _ _ | bFerriteBead _ _ _ _ => true
  | _ => false
  end.

(** The classes of the leaves of an s-domain model. *)
Definition is_s_leaf (l : leaf') : bool :=
  match attrs l with
  | bV | bI | bY | bZ => true
  | _ => false
  end.

(** ** [s_model] *)

(** Modelled from the spec: [self.Z] is the alias of [self.impedance]
    (a property of [ImmitanceMixin], lcapy/immitance.py, which
    oneport.py imports). *)
Definition mixin_Z (self : leaf') : result Q := OnePort_impedance self.

(** [OnePort.s_model]; the classes [V], [I], [Y] and [Z] are applied to
    quantities here, whose values the constructors wrap again. *)
Definition OnePort_s_model (self : leaf') : result net :=
  match _Voc self with
  | Some voc =>
      if q_eq0 voc then
        z ← OnePort_impedance self; Ok (Leaf (Z_init (qval z)))
      else
        let Voc := q_laplace voc in
        z ← mixin_Z self;
        if q_eq0 z then Ok (Leaf (V_init (qval Voc)))
        else
          let v := Leaf (V_init (qval Voc)) in
          z ← OnePort_impedance self;
          Ser_init [v; Leaf (Z_init (qval z))]
  | None =>
  match _Isc self with
  | Some isc =>
      let admittance := OnePort_admittance (_Y self) (OnePort_impedance self) in
      if q_eq0 isc then
        y ← admittance; Ok (Leaf (Y_init (qval y)))
      else
        let Isc := q_laplace isc in
        y ← admittance;
        if q_eq0 y then Ok (Leaf (I_init (qval Isc)))
        else
          let i := Leaf (I_init (qval Isc)) in
          y ← admittance;
          Par_init [i; Leaf (Y_init (qval y))]
  | None =>
  match _Z self with
  | Some z => Ok (Leaf (Z_init (qval z)))
  | None =>
  match _Y self with
  | Some y => Ok (Leaf (Y_init (qval y)))
  | None => Err (ValueError "Internal error"%string)
  end end end end.

(** [ParSer.s_model] converts the arguments and rebuilds the node. *)
Fixpoint s_model (n : net) : result net :=
  match n with
  | Leaf l => OnePort_s_model l
  | Par args => args ← sequence (map s_model args); Par_init args
  | Ser args => args ← sequence (map s_model args); Ser_init args
  end.

(** ** [LoadCircuit] *)

Record LoadCircuit : Type := mkLoadCircuit {
  source_OP : net;
  load_OP : net;
  vnet : net;
  inet : net
}.

(** [LoadCircuit.__init__]: [source_OP | load_OP] and
    [source_OP + load_OP] are [Par] and [Ser] of the two. *)
Definition LoadCircuit_init (source_OP load_OP : net) : result LoadCircuit :=
  vnet ← Par_init [source_OP; load_OP];
  inet ← Ser_init [source_OP; load_OP];
  Ok (mkLoadCircuit source_OP load_OP vnet inet).

(** [OnePort.load]; its [issubclass] test holds of every [net]. *)
Definition OnePort_load (self OP2 : net) : result LoadCircuit :=
  LoadCircuit_init self OP2.

Definition LoadCircuit_V (lc : LoadCircuit) : result Q := Voc (vnet lc).
Definition LoadCircuit_I (lc : LoadCircuit) : result Q := Isc (inet lc).

(** ** Printing: [ParSer.__str__], [pretty] and [latex]

    The three methods are one loop over the arguments; they differ in
    the method called on the arguments.  What a leaf prints is
    [Network]'s (lcapy/network.py) and is the parameter [leaf_text]. *)

Definition operator (k : cls) : string :=
  match k with
  | cPar => "|"%string
  | _ => "+"%string
  end.

Section TextLoop.
Variable text : net -> string.
Variable self_cls : cls.

(** [for m, arg in enumerate(self.args)], [str] being the text so far;
    [m != len(self.args) - 1] is [rest] not being empty. *)
Fixpoint text_loop (str : string) (args : list net) : string :=
  match args with
  | [] => str
  | arg :: rest =>
      let argstr := text arg in
      let argstr :=
        if isinstance arg cParSer && negb (bool_decide (class_of arg = self_cls))
        then ("(" ++ argstr ++ ")")%string
        else argstr in
      let str := (str ++ argstr)%string in
      let str :=
        match rest with
        | [] => str
        | _ => (str ++ (" " ++ operator self_cls ++ " "))%string
        end in
      text_loop str rest
  end.
End TextLoop.

Fixpoint ParSer_text (leaf_text : leaf' -> string) (n : net) : string :=
  match n with
  | Leaf l => leaf_text l
  | Par args => text_loop (ParSer_text leaf_text) cPar ""%string args
  | Ser args => text_loop (ParSer_text leaf_text) cSer ""%string args
  end.

End MoreModel.

(** ** Further example networks on the rational engine *)

Module RatNets.
#[local] Existing Instance Rat.engine.

(** [FerriteBead(1, 2, 3, 4)]; the constructor does not fail on these
    values. *)
Definition bead : leaf sym :=
  match FerriteBead_init (snum 1) (snum 2) (snum 3) (snum 4) with
  | Ok l => l
  | Err _ => blank bOnePort
  end.

(** [FerriteBead(1, 2, 3, 4) + R(5)] *)
Definition bead_R : oneport sym := Ser [Leaf bead; Leaf Rat.R5].

(** [(R(5) + L(10)) + (R(5) | R(5)) + L(5)] *)
Definition nested : oneport sym :=
  Ser [Ser [Leaf Rat.R5; Leaf Rat.L10]; Par [Leaf Rat.R5; Leaf Rat.R5]; Leaf Rat.L5].

(** [R(5) + Vdc(10) + L(10, 2)] *)
Definition loaded : oneport sym :=
  Ser [Leaf Rat.R5; Leaf Rat.Vdc10; Leaf Rat.L10_ic2].

Definition Vdc5 : leaf sym := Vdc_init (snum 5).

(** A text for the leaves: the class letter of a resistor or an
    inductor. *)
Definition class_letter (l : leaf sym) : string :=
  match attrs l with
  | bR _ => "R"%string
  | _ => "L"%string
  end.

End RatNets.

(** * Properties *)

Section Properties.

Context {E : Engine}.

Local Abbreviation Q := (quantity sym).
Local Abbreviation net := (oneport sym).

(** ** Classes *)

Lemma leaf_not_ParSer (l : leaf sym) : isinstance (Leaf l) cParSer = false.
Proof. unfold isinstance; simpl. destruct (attrs l); reflexivity. Qed.

Lemma isinstance_V_exact (n : net) :
  isinstance n cV = bool_decide (class_of n = cV).
Proof. unfold isinstance. destruct (class_of n); reflexivity. Qed.

Lemma isinstance_I_exact (n : net) :
  isinstance n cI = bool_decide (class_of n = cI).
Proof. unfold isinstance. destruct (class_of n); reflexivity. Qed.

(** ** The resolver *)

(** C1. The [impedance] of a leaf is resolved in the order [_Z], [_Y],
    [_Voc], [_Isc], the first one set deciding: the stored [_Z]; else
    [Impedance(1/_Y)]; else [Impedance(0)]; else
    [Impedance(1/Admittance(0))]; and with none of the four set the
    read raises an error. *)
Theorem impedance_resolution_order (l : leaf sym) :
  (forall z, _Z l = Some z -> impedance (Leaf l) = Ok z) /\
  (forall y, _Z l = None -> _Y l = Some y ->
     impedance (Leaf l) = Ok (Impedance (qval (q_recip y)))) /\
  (forall v, _Z l = None -> _Y l = None -> _Voc l = Some v ->
     impedance (Leaf l) = Ok (Impedance (snum 0))) /\
  (forall i, _Z l = None -> _Y l = None -> _Voc l = None -> _Isc l = Some i ->
     impedance (Leaf l) = Ok (Impedance (qval (q_recip (Admittance (snum 0)))))) /\
  (_Z l = None -> _Y l = None -> _Voc l = None -> _Isc l = None ->
     exists msg, impedance (Leaf l) = Err (ValueError msg)).
Proof.
  simpl. unfold OnePort_impedance.
  repeat split; intros; repeat match goal with H : _ = _ |- _ => rewrite H end;
    eauto.
Qed.

(** With [_Isc] set, [impedance] cannot fail. *)
Lemma impedance_defined_of_Isc (l : leaf sym) (i : Q) :
  _Isc l = Some i -> exists z, OnePort_impedance l = Ok z.
Proof.
  intros Hi. unfold OnePort_impedance. rewrite Hi.
  destruct (_Z l), (_Y l), (_Voc l); eauto.
Qed.

(** C7. The [Voc] of a leaf is resolved in the order [_Voc], [_Isc],
    [_Z], [_Y]: the stored [_Voc]; else [_Isc * impedance]; else
    [Voltage(0)]; else [Current(0)]; else an error.  [Isc] is the stored
    [_Isc], and otherwise [Voc / impedance]: it fails as [Voc] does when
    [Voc] fails, and is otherwise what the quotient of the two
    quantities is, a value or the exception of a quotient that the
    wrappers do not take. *)
Theorem Voc_Isc_resolution_order (l : leaf sym) :
  (forall v, _Voc l = Some v -> Voc (Leaf l) = Ok v) /\
  (forall i, _Voc l = None -> _Isc l = Some i ->
     exists z, impedance (Leaf l) = Ok z /\ Voc (Leaf l) = Ok (q_mul i z)) /\
  (forall z, _Voc l = None -> _Isc l = None -> _Z l = Some z ->
     Voc (Leaf l) = Ok (Voltage (snum 0))) /\
  (forall y, _Voc l = None -> _Isc l = None -> _Z l = None -> _Y l = Some y ->
     Voc (Leaf l) = Ok (Current (snum 0))) /\
  (_Voc l = None -> _Isc l = None -> _Z l = None -> _Y l = None ->
     exists msg, Voc (Leaf l) = Err (ValueError msg)) /\
  (forall i, _Isc l = Some i -> Isc (Leaf l) = Ok i) /\
  (forall v z, _Isc l = None -> Voc (Leaf l) = Ok v -> impedance (Leaf l) = Ok z ->
     Isc (Leaf l) = q_div v z) /\
  (forall e, _Isc l = None -> Voc (Leaf l) = Err e -> Isc (Leaf l) = Err e) /\
  (forall v, _Isc l = None -> Voc (Leaf l) = Ok v ->
     exists z, impedance (Leaf l) = Ok z).
Proof.
  simpl.
  split; [intros v H; unfold OnePort_Voc; rewrite H; reflexivity|].
  split.
  { intros i H1 H2. destruct (impedance_defined_of_Isc l i H2) as [z Hz].
    exists z. unfold OnePort_Voc. rewrite H1, H2, Hz. split; reflexivity. }
  split; [intros z H1 H2 H3; unfold OnePort_Voc; rewrite H1, H2, H3; reflexivity|].
  split; [intros y H1 H2 H3 H4; unfold OnePort_Voc; rewrite H1, H2, H3, H4;
          reflexivity|].
  split; [intros H1 H2 H3 H4; unfold OnePort_Voc; rewrite H1, H2, H3, H4;
          eauto|].
  split; [intros i H; unfold OnePort_Isc; rewrite H; reflexivity|].
  split.
  { intros v z H1 H2 H3. unfold OnePort_Isc. rewrite H1, H2, H3. reflexivity. }
  split.
  - intros e H1 H2. unfold OnePort_Isc. rewrite H1, H2. reflexivity.
  - intros v H1. unfold OnePort_Voc, OnePort_impedance. rewrite H1.
    destruct (_Z l), (_Y l), (_Voc l); simpl; intros H; try discriminate H; eauto.
Qed.

(** C8, as amended.  [.V] is [.Voc] on every one-port.  [.I] is [.Isc]
    on the current sources only; on every other one-port, composites
    included, it is [Current(0)]. *)
Theorem V_I_aliases (n : net) :
  get_V n = Voc n /\
  (isinstance n cCurrentSource = true -> get_I n = Isc n) /\
  (isinstance n cCurrentSource = false -> get_I n = Ok (Current (snum 0))).
Proof.
  unfold get_V, get_I, OnePort_V, OnePort_I, CurrentSource_I.
  repeat split; intros H; rewrite H; reflexivity.
Qed.

(** ** Construction of composites *)

Section PairScanFacts.
Variable c : cls.
Variable msg : string.

Lemma check_pairs_from_err (a : net) (rest : list net) (e : error) :
  check_pairs_from c msg a rest = Err e -> e = ValueError msg.
Proof.
  induction rest as [|b rest IH]; simpl; [discriminate|].
  destruct (isinstance a c && isinstance b c); [congruence|].
  destruct (check_pairs_from c msg a rest) as [ws|e'] eqn:Hr; simpl.
  - destruct (isinstance a c); [discriminate|].
    destruct (isinstance b c); discriminate.
  - intros [= <-]. apply IH. reflexivity.
Qed.

Lemma check_pairs_err (args : list net) (e : error) :
  check_pairs c msg args = Err e -> e = ValueError msg.
Proof.
  induction args as [|a rest IH]; simpl; [discriminate|].
  destruct (check_pairs_from c msg a rest) as [ws|e'] eqn:Hr; simpl.
  - destruct (check_pairs c msg rest) as [ws'|e'']; simpl; [discriminate|].
    intros [= <-]. apply IH. reflexivity.
  - intros [= <-]. eapply check_pairs_from_err. eassumption.
Qed.

Lemma check_pairs_from_ok (a : net) (rest : list net) :
  is_ok (check_pairs_from c msg a rest)
  = negb (isinstance a c && (0 <? count_instances c rest)).
Proof.
  induction rest as [|b rest IH]; simpl.
  - rewrite andb_false_r. reflexivity.
  - destruct (isinstance a c) eqn:Ha, (isinstance b c) eqn:Hb; simpl in *;
      try reflexivity;
      destruct (check_pairs_from c msg a rest); simpl in *;
      try rewrite Ha; try rewrite Hb; simpl; try assumption; reflexivity.
Qed.

(** The scan succeeds exactly when at most one argument is an instance
    of the source class. *)
Lemma check_pairs_ok (args : list net) :
  is_ok (check_pairs c msg args) = (count_instances c args <=? 1).
Proof.
  induction args as [|a rest IH]; simpl; [reflexivity|].
  pose proof (check_pairs_from_ok a rest) as Hf.
  destruct (check_pairs_from c msg a rest) as [ws|e]; simpl in *.
  - destruct (check_pairs c msg rest) as [ws'|e']; simpl in *;
      destruct (isinstance a c); simpl in *;
      destruct (count_instances c rest) as [|[|k]]; simpl in *;
      congruence.
  - destruct (isinstance a c); simpl in *; [|discriminate].
    destruct (count_instances c rest) as [|k]; simpl in *;
      [discriminate|reflexivity].
Qed.

Lemma count_instances_app (l1 l2 : list net) :
  count_instances c (l1 ++ l2) = count_instances c l1 + count_instances c l2.
Proof. induction l1 as [|a l1 IH]; simpl; [reflexivity|]. rewrite IH. lia. Qed.

Lemma count_instances_classes (args args' : list net) :
  map class_of args = map class_of args' ->
  count_instances c args = count_instances c args'.
Proof.
  revert args'. induction args as [|a args IH]; intros [|a' args']; simpl;
    try discriminate; [reflexivity|].
  intros [= Ha Hr]. unfold isinstance. rewrite Ha, (IH _ Hr). reflexivity.
Qed.

Lemma check_pairs_two (l1 l2 l3 : list net) (a b : net) :
  isinstance a c = true -> isinstance b c = true ->
  check_pairs c msg (l1 ++ a :: l2 ++ b :: l3) = Err (ValueError msg).
Proof.
  intros Ha Hb.
  pose proof (check_pairs_ok (l1 ++ a :: l2 ++ b :: l3)) as Hok.
  rewrite count_instances_app in Hok. simpl in Hok.
  rewrite count_instances_app in Hok. simpl in Hok.
  rewrite Ha, Hb in Hok.
  destruct (check_pairs c msg (l1 ++ a :: l2 ++ b :: l3)) as [ws|e] eqn:Hr.
  - simpl in Hok. symmetry in Hok. apply Nat.leb_le in Hok. lia.
  - f_equal. eapply check_pairs_err. eassumption.
Qed.
End PairScanFacts.

Lemma Par_init_ok (args : list net) :
  is_ok (Par_init args) = (count_instances cV args <=? 1).
Proof.
  unfold Par_init, Par_warnings. rewrite <- check_pairs_ok with (msg := "Voltage sources connected in parallel"%string).
  destruct (check_pairs _ _ args); reflexivity.
Qed.

Lemma Ser_init_ok (args : list net) :
  is_ok (Ser_init args) = (count_instances cI args <=? 1).
Proof.
  unfold Ser_init, Ser_warnings. rewrite <- check_pairs_ok with (msg := "Current sources connected in series"%string).
  destruct (check_pairs _ _ args); reflexivity.
Qed.

Lemma Par_init_value (args : list net) :
  count_instances cV args <= 1 -> Par_init args = Ok (Par args).
Proof.
  intros H. apply Nat.leb_le in H. rewrite <- Par_init_ok in H.
  unfold Par_init in *. destruct (Par_warnings args); [reflexivity|discriminate].
Qed.

Lemma Ser_init_value (args : list net) :
  count_instances cI args <= 1 -> Ser_init args = Ok (Ser args).
Proof.
  intros H. apply Nat.leb_le in H. rewrite <- Ser_init_ok in H.
  unfold Ser_init in *. destruct (Ser_warnings args); [reflexivity|discriminate].
Qed.

(** C9. A [Par] with two arguments of class [V] among its arguments
    raises whatever the values of the two sources, equal or not, and
    whether [Par] raises depends on the classes of its arguments only;
    the same holds of [Ser] and the class [I]. *)
Theorem two_V_in_Par_two_I_in_Ser (l1 l2 l3 : list net) (a b : net) :
  (class_of a = cV -> class_of b = cV ->
     exists msg, Par_init (l1 ++ a :: l2 ++ b :: l3) = Err (ValueError msg)) /\
  (class_of a = cI -> class_of b = cI ->
     exists msg, Ser_init (l1 ++ a :: l2 ++ b :: l3) = Err (ValueError msg)) /\
  (forall args args' : list net, map class_of args = map class_of args' ->
     is_ok (Par_init args) = is_ok (Par_init args') /\
     is_ok (Ser_init args) = is_ok (Ser_init args')).
Proof.
  split; [|split].
  - intros Ha Hb. eexists. unfold Par_init, Par_warnings.
    rewrite check_pairs_two; [reflexivity| |];
      rewrite isinstance_V_exact; apply bool_decide_eq_true; assumption.
  - intros Ha Hb. eexists. unfold Ser_init, Ser_warnings.
    rewrite check_pairs_two; [reflexivity| |];
      rewrite isinstance_I_exact; apply bool_decide_eq_true; assumption.
  - intros args args' H. rewrite !Par_init_ok, !Ser_init_ok.
    rewrite !(count_instances_classes _ args args' H). split; reflexivity.
Qed.

(** C2, the code at the inputs where it departs from the claim: two DC
    voltage sources in parallel and two DC current sources in series
    are constructed without an error, whatever their values. *)
Theorem Vdc_in_Par_Idc_in_Ser_accepted (v1 v2 i1 i2 : sym) :
  Par_init [Leaf (Vdc_init v1); Leaf (Vdc_init v2)]
  = Ok (Par [Leaf (Vdc_init v1); Leaf (Vdc_init v2)]) /\
  Ser_init [Leaf (Idc_init i1); Leaf (Idc_init i2)]
  = Ok (Ser [Leaf (Idc_init i1); Leaf (Idc_init i2)]).
Proof. split; reflexivity. Qed.

(** ** Impedance and admittance of composites *)

Lemma sum_steps_err (vals : list (result Q)) (e : error) :
  fold_left sum_step vals (Err e) = Err e.
Proof. induction vals as [|r vals IH]; simpl; [reflexivity|exact IH]. Qed.

(** The loop on quantities that are read without an error, the sum so
    far being a quantity [X]. *)
Lemma sum_steps_from (qs : list Q) (X : Q) :
  fold_left sum_step (map Ok qs) (Ok (Some X))
  = match first_other_kind (qtag_of X) qs with
    | None => Ok (Some (mkq (qtag_of X) (fold_left sadd (map qval qs) (qval X))))
    | Some k => Err (add_error (qtag_of X) k)
    end.
Proof.
  revert X. induction qs as [|q qs IH]; intros [k x]; cbn [map fold_left].
  - reflexivity.
  - cbn [first_other_kind sum_step mbind result_mbind result_bind qtag_of qval].
    unfold q_add. cbn [qtag_of qval].
    destruct (decide (qtag_of q = k)) as [Hk|Hk].
    + rewrite (bool_decide_eq_true_2 _ Hk).
      rewrite (bool_decide_eq_true_2 (k = qtag_of q)) by congruence.
      cbn [mbind result_mbind result_bind]. rewrite IH. reflexivity.
    + rewrite (bool_decide_eq_false_2 _ Hk).
      rewrite (bool_decide_eq_false_2 (k = qtag_of q)) by congruence.
      cbn [mbind result_mbind result_bind]. apply sum_steps_err.
Qed.

Lemma sum_loop_values (qs : list Q) :
  sum_loop (map Ok qs) = quantity_sum qs.
Proof.
  unfold sum_loop, quantity_sum. destruct qs as [|q qs]; [reflexivity|].
  cbn [map fold_left sum_step mbind result_mbind result_bind].
  rewrite sum_steps_from. unfold q_radd0. cbn [qtag_of qval].
  destruct (first_other_kind (qtag_of q) qs); reflexivity.
Qed.

Lemma sequence_values {A : Type} (vals : list (result A)) (l : list A) :
  sequence vals = Ok l -> vals = map Ok l.
Proof.
  revert l. induction vals as [|r vals IH]; intros l; simpl.
  - intros [= <-]. reflexivity.
  - destruct r as [a|e]; simpl; [|discriminate].
    destruct (sequence vals) as [l'|e]; simpl; [|discriminate].
    intros [= <-]. simpl. f_equal. apply IH. reflexivity.
Qed.

(** When every read succeeds, the loop returns the sum of the
    quantities read. *)
Lemma sum_loop_sequence (vals : list (result Q)) (qs : list Q) :
  sequence vals = Ok qs -> sum_loop vals = quantity_sum qs.
Proof. intros H. rewrite (sequence_values _ _ H). apply sum_loop_values. Qed.

(** When a read fails, so does the loop. *)
Lemma sum_loop_read_fails (vals : list (result Q)) (e : error) :
  sequence vals = Err e -> is_ok (sum_loop vals) = false.
Proof.
  unfold sum_loop. generalize (@Ok (option Q) None). revert e.
  induction vals as [|r vals IH]; intros e acc; simpl; [discriminate|].
  destruct r as [x|e']; simpl.
  - destruct (sequence vals) as [l|e''] eqn:Hs; simpl; [discriminate|].
    intros _. apply (IH e''). reflexivity.
  - intros _. destruct acc as [X|e'']; simpl; rewrite sum_steps_err; reflexivity.
Qed.

Lemma sum_loop_defined (quantity : net -> result Q) (args : list net) :
  is_ok (sum_loop (map quantity args)) = is_ok (children_sum quantity args).
Proof.
  unfold children_sum.
  destruct (sequence (map quantity args)) as [qs|e] eqn:Hs.
  - rewrite (sum_loop_sequence _ _ Hs). reflexivity.
  - rewrite (sum_loop_read_fails _ _ Hs). reflexivity.
Qed.

Lemma first_other_kind_none (k : qtag) (qs : list Q) :
  Forall (fun q => qtag_of q = k) qs -> first_other_kind k qs = None.
Proof.
  induction 1 as [|q qs Hq _ IH]; simpl; [reflexivity|].
  rewrite (bool_decide_eq_true_2 _ Hq). exact IH.
Qed.

Lemma quantity_sum_one_kind (k : qtag) (qs : list Q) :
  Forall (fun q => qtag_of q = k) qs ->
  quantity_sum qs = Ok (fold_left sadd (map qval qs) (snum 0)).
Proof.
  intros H. unfold quantity_sum. destruct qs as [|q qs]; [reflexivity|].
  inversion H as [|? ? Hq Hqs]; subst.
  rewrite first_other_kind_none; [reflexivity|]. exact Hqs.
Qed.

(** C4. The impedance of a [Ser] is the sum of the impedances of its
    arguments and the admittance of a [Par] is the sum of the
    admittances of its arguments: when they are read without an error,
    the quantity of the composite is the sum of the quantities read
    (for quantities of one kind, the sum of their values from 0, left
    to right), and it raises when that sum does, quantities of
    different kinds having no sum; when a read raises, so does the
    composite.  The
    admittance of a [Ser] and the impedance of a [Par] are the
    reciprocals of these sums, not sums over the arguments. *)
Theorem series_parallel_sums (args : list net) :
  (forall qs, sequence (map impedance args) = Ok qs ->
     impedance (Ser args) = (Z ← quantity_sum qs; Ok (Impedance Z))) /\
  (forall qs, sequence (map admittance args) = Ok qs ->
     admittance (Par args) = (Y ← quantity_sum qs; Ok (Admittance Y))) /\
  (forall qs k, sequence (map impedance args) = Ok qs ->
     Forall (fun q => qtag_of q = k) qs ->
     impedance (Ser args) = Ok (Impedance (fold_left sadd (map qval qs) (snum 0)))) /\
  (forall qs k, sequence (map admittance args) = Ok qs ->
     Forall (fun q => qtag_of q = k) qs ->
     admittance (Par args) = Ok (Admittance (fold_left sadd (map qval qs) (snum 0)))) /\
  is_ok (impedance (Ser args)) = is_ok (children_sum impedance args) /\
  is_ok (admittance (Par args)) = is_ok (children_sum admittance args) /\
  admittance (Ser args)
  = (z ← impedance (Ser args); Ok (Admittance (qval (q_recip z)))) /\
  impedance (Par args)
  = (y ← admittance (Par args); Ok (Impedance (qval (q_recip y)))).
Proof.
  split; [|split; [|split; [|split; [|split; [|split; [|split]]]]]].
  - intros qs H. simpl. unfold Ser_impedance.
    rewrite (sum_loop_sequence _ _ H). reflexivity.
  - intros qs H. simpl. unfold Par_admittance.
    rewrite (sum_loop_sequence _ _ H). reflexivity.
  - intros qs k H Hk. simpl. unfold Ser_impedance.
    rewrite (sum_loop_sequence _ _ H), (quantity_sum_one_kind k qs Hk). reflexivity.
  - intros qs k H Hk. simpl. unfold Par_admittance.
    rewrite (sum_loop_sequence _ _ H), (quantity_sum_one_kind k qs Hk). reflexivity.
  - simpl. unfold Ser_impedance. rewrite <- sum_loop_defined.
    destruct (sum_loop (map impedance args)); reflexivity.
  - simpl. unfold Par_admittance. rewrite <- sum_loop_defined.
    destruct (sum_loop (map admittance args)); reflexivity.
  - reflexivity.
  - reflexivity.
Qed.

(** ** The ferrite bead *)

(** C10. [FerriteBead(Rs, Rp, Cp, Lp)] is constructed without an error;
    its [expand()] is the chain [R(Rs) + (R(Rp) + L(Lp) + C(Cp))] of
    [Ser] nodes, with no [Par] node; the [_Z] stored by the constructor
    is the impedance of that chain, which is
    [Rs + Rp + s*Lp + 1/(s*Cp)] as soon as the engine's addition has 0
    as a left unit and is associative and [cExpr] is idempotent. *)
Theorem FerriteBead_is_series_chain (Rs Rp Cp Lp : sym) :
  let rs := cExpr Rs in
  let rp := cExpr Rp in
  let cp := cExpr Cp in
  let lp := cExpr Lp in
  let chain :=
    Ser [Leaf (R_init rs);
         Ser [Ser [Leaf (R_init rp); Leaf (L_init lp None)];
              Leaf (C_init cp None)]] in
  exists (bead : leaf sym) (z : Q),
    FerriteBead_init Rs Rp Cp Lp = Ok bead /\
    attrs bead = bFerriteBead rs rp cp lp /\
    expand (Leaf bead) = Ok chain /\
    has_no_Par chain = true /\
    impedance chain = Ok z /\
    _Z bead = Some z /\
    impedance (Leaf bead) = Ok z /\
    ((forall x, sadd (snum 0) x = x) ->
     (forall x y w, sadd (sadd x y) w = sadd x (sadd y w)) ->
     (forall x, cExpr (cExpr x) = cExpr x) ->
     z = Impedance (sadd (sadd (sadd rs rp) (smul sym_s lp))
                         (sdiv (snum 1) (smul sym_s cp)))).
Proof.
  intros rs rp cp lp chain.
  eexists _, _.
  split; [reflexivity|]. split; [reflexivity|]. split; [reflexivity|].
  split; [reflexivity|]. split; [reflexivity|]. split; [reflexivity|].
  split; [reflexivity|].
  intros H0 Hassoc Hc. simpl. subst rs rp cp lp.
  rewrite !Hc, !H0, !Hassoc. reflexivity.
Qed.

(** ** Simplification of a pair of leaves *)

Lemma simplify_Ser_pair (deep : bool) (l1 l2 : leaf sym) :
  simplify deep (Ser [Leaf l1; Leaf l2])
  = pair_outcome (Ser [Leaf l1; Leaf l2]) (_combine cSer (Leaf l1) (Leaf l2)).
Proof.
  cbn [simplify flatten_loop]. rewrite !leaf_not_ParSer.
  cbn [mbind result_mbind result_bind app]. unfold simplify_scan.
  cbn [args_of map length scan_outer lookup list_lookup mbind result_mbind
       result_bind].
  rewrite !leaf_not_ParSer.
  cbn [scan_inner Nat.sub lookup list_lookup]. rewrite !leaf_not_ParSer.
  destruct (_combine cSer (Leaf l1) (Leaf l2)) as [[c|]|e];
    cbn [scan_inner mbind result_mbind result_bind insert list_insert lookup
         list_lookup length Nat.sub omap list_omap id pair_outcome];
    rewrite ?leaf_not_ParSer; reflexivity.
Qed.

Lemma simplify_Par_pair (deep : bool) (l1 l2 : leaf sym) :
  simplify deep (Par [Leaf l1; Leaf l2])
  = pair_outcome (Par [Leaf l1; Leaf l2]) (_combine cPar (Leaf l1) (Leaf l2)).
Proof.
  cbn [simplify flatten_loop]. rewrite !leaf_not_ParSer.
  cbn [mbind result_mbind result_bind app]. unfold simplify_scan.
  cbn [args_of map length scan_outer lookup list_lookup mbind result_mbind
       result_bind].
  rewrite !leaf_not_ParSer.
  cbn [scan_inner Nat.sub lookup list_lookup]. rewrite !leaf_not_ParSer.
  destruct (_combine cPar (Leaf l1) (Leaf l2)) as [[c|]|e];
    cbn [scan_inner mbind result_mbind result_bind insert list_insert lookup
         list_lookup length Nat.sub omap list_omap id pair_outcome];
    rewrite ?leaf_not_ParSer; reflexivity.
Qed.

(** ** Series inductors *)

Lemma combine_Ser_inductors (L1 L2 : sym) (i1 i2 : option sym) :
  let c1 := cExpr (default (snum 0) i1) in
  let c2 := cExpr (default (snum 0) i2) in
  let h1 := bool_decide (i1 <> None) in
  let h2 := bool_decide (i2 <> None) in
  _combine cSer (Leaf (L_init L1 i1)) (Leaf (L_init L2 i2))
  = if sneb c1 c2 || negb (eqb h1 h2) then Err (ValueError L_conflict_msg)
    else Ok (Some (Leaf (L_init (sadd (cExpr L1) (cExpr L2))
                                (if h1 then Some c1 else None)))).
Proof. reflexivity. Qed.

(** C3, as amended.  [simplify] on a series of two inductors [L(L1, i1)]
    and [L(L2, i2)]: when the two initial currents compare equal (an
    unspecified one counting as 0) and both or neither of them is
    specified, the result is the single inductor [L(L1 + L2, i0)], [i0]
    being the first initial current if it was specified; in every other
    case, that is when the initial currents differ or when only one of
    the two inductors specifies one, an error is raised. *)
Theorem series_inductors_combine (deep : bool) (L1 L2 : sym) (i1 i2 : option sym) :
  let a := Leaf (L_init L1 i1) in
  let b := Leaf (L_init L2 i2) in
  let c1 := cExpr (default (snum 0) i1) in
  let c2 := cExpr (default (snum 0) i2) in
  let sum :=
    Leaf (L_init (sadd (cExpr L1) (cExpr L2))
                 (match i1 with Some _ => Some c1 | None => None end)) in
  (seqb c1 c2 = true -> (i1 = None <-> i2 = None) ->
     _combine cSer a b = Ok (Some sum) /\
     simplify deep (Ser [a; b]) = Ok sum) /\
  (seqb c1 c2 = false ->
     _combine cSer a b = Err (ValueError L_conflict_msg) /\
     simplify deep (Ser [a; b]) = Err (ValueError L_conflict_msg)) /\
  ((i1 = None /\ i2 <> None) \/ (i1 <> None /\ i2 = None) ->
     _combine cSer a b = Err (ValueError L_conflict_msg) /\
     simplify deep (Ser [a; b]) = Err (ValueError L_conflict_msg)).
Proof.
  intros a b c1 c2 sum. subst a b sum.
  rewrite simplify_Ser_pair, combine_Ser_inductors.
  fold c1 c2. unfold sneb.
  split; [|split].
  - intros Heq Hiff. rewrite Heq.
    destruct i1, i2; simpl; try (split; reflexivity).
    + destruct Hiff as [_ H]. discriminate H. reflexivity.
    + destruct Hiff as [H _]. discriminate H. reflexivity.
  - intros Hne. rewrite Hne. split; reflexivity.
  - intros [[H1 H2]|[H1 H2]]; destruct i1, i2; try congruence;
      rewrite orb_true_r; split; reflexivity.
Qed.

(** ** Absorption of degenerate elements *)

Lemma resolvable_reads (l : leaf sym) :
  resolvable l = true ->
  (exists q, impedance (Leaf l) = Ok q) /\
  (exists q, admittance (Leaf l) = Ok q) /\
  (exists q, Voc (Leaf l) = Ok q).
Proof.
  unfold resolvable. simpl.
  unfold OnePort_Voc, OnePort_admittance, OnePort_impedance.
  destruct (_Z l), (_Y l), (_Voc l), (_Isc l); simpl; intros H;
    try discriminate H; repeat split; eauto.
Qed.

Lemma is_ok_value {A : Type} (r : result A) :
  is_ok r = true -> exists a, r = Ok a.
Proof. destruct r as [a|e]; [eauto|discriminate]. Qed.

(** The test [isinstance(arg, classes) and arg.quantity == 0] reads the
    quantity of an instance of the classes only. *)
Lemma degenerate_reads (cs : list cls) (quantity : net -> result Q) (n : net) :
  (existsb (isinstance n) cs = true -> exists q, quantity n = Ok q) ->
  exists d : bool,
    degenerate cs quantity n = Ok d /\
    (d = true <-> existsb (isinstance n) cs = true /\ reads_zero quantity n).
Proof.
  intros Hread. unfold degenerate, reads_zero.
  destruct (existsb (isinstance n) cs).
  - destruct (Hread eq_refl) as [q Hq].
    rewrite Hq. simpl. exists (q_eq0 q). split; [reflexivity|]. split.
    + intros H. split; [reflexivity|]. exists q. split; [reflexivity|exact H].
    + intros [_ [q' [[= <-] H]]]. exact H.
  - exists false. split; [reflexivity|]. split; [discriminate|].
    intros [H _]. discriminate H.
Qed.

Lemma isinstance_final (n : net) (c : cls) :
  In c [cV; cI; cR; cZ; cY; cG] ->
  isinstance n c = bool_decide (class_of n = c).
Proof.
  unfold isinstance. simpl.
  intros [<-|[<-|[<-|[<-|[<-|[<-|[]]]]]]]; destruct (class_of n); reflexivity.
Qed.

Lemma instance_of_one (n : net) (c : cls) :
  In c [cV; cI; cR; cZ; cY; cG] ->
  existsb (isinstance n) [c] = true <-> class_of n = c.
Proof.
  intros Hc. simpl. rewrite orb_false_r, (isinstance_final n c Hc).
  apply bool_decide_eq_true.
Qed.

Lemma instance_of_two (n : net) (c d : cls) :
  In c [cV; cI; cR; cZ; cY; cG] -> In d [cV; cI; cR; cZ; cY; cG] ->
  existsb (isinstance n) [c; d] = true <-> class_of n = c \/ class_of n = d.
Proof.
  intros Hc Hd. simpl.
  rewrite orb_false_r, (isinstance_final n c Hc), (isinstance_final n d Hd).
  rewrite orb_true_iff, !bool_decide_eq_true. reflexivity.
Qed.

Lemma degenerate_in_Ser_iff (n : net) :
  degenerate_in_Ser n <->
  (existsb (isinstance n) [cV] = true /\ reads_zero Voc n) \/
  (existsb (isinstance n) [cR; cZ] = true /\ reads_zero impedance n).
Proof.
  unfold degenerate_in_Ser.
  rewrite instance_of_one, instance_of_two by (simpl; tauto). reflexivity.
Qed.

Lemma degenerate_in_Par_iff (n : net) :
  degenerate_in_Par n <->
  (existsb (isinstance n) [cI] = true /\ reads_zero Isc n) \/
  (existsb (isinstance n) [cY; cG] = true /\ reads_zero admittance n).
Proof.
  unfold degenerate_in_Par.
  rewrite instance_of_one, instance_of_two by (simpl; tauto). reflexivity.
Qed.

Lemma combine_cross_Ser_absorbs (a b : net) :
  (exists q, Voc a = Ok q) -> (exists q, impedance a = Ok q) ->
  (exists q, Voc b = Ok q) -> (exists q, impedance b = Ok q) ->
  degenerate_in_Ser a \/ degenerate_in_Ser b ->
  (degenerate_in_Ser a /\ combine_cross_Ser a b = Ok (Some b)) \/
  (degenerate_in_Ser b /\ combine_cross_Ser a b = Ok (Some a)).
Proof.
  intros Hva Hza Hvb Hzb Hdeg.
  destruct (degenerate_reads [cV] Voc a (fun _ => Hva)) as (d1 & E1 & I1).
  destruct (degenerate_reads [cV] Voc b (fun _ => Hvb)) as (d2 & E2 & I2).
  destruct (degenerate_reads [cR; cZ] impedance a (fun _ => Hza)) as (d3 & E3 & I3).
  destruct (degenerate_reads [cR; cZ] impedance b (fun _ => Hzb)) as (d4 & E4 & I4).
  rewrite !degenerate_in_Ser_iff in *.
  unfold combine_cross_Ser. rewrite E1, E2, E3, E4. simpl.
  destruct d1; [left; split; [left; apply I1|]; reflexivity|].
  destruct d2; [right; split; [left; apply I2|]; reflexivity|].
  destruct d3; [left; split; [right; apply I3|]; reflexivity|].
  destruct d4; [right; split; [right; apply I4|]; reflexivity|].
  exfalso. destruct Hdeg as [[H|H]|[H|H]];
    [apply I1 in H|apply I3 in H|apply I2 in H|apply I4 in H]; discriminate H.
Qed.

Lemma reads_Isc_if_I (n : net) :
  (class_of n = cI -> is_ok (Isc n) = true) ->
  existsb (isinstance n) [cI] = true -> exists q, Isc n = Ok q.
Proof.
  intros H Hi. apply is_ok_value, H. apply instance_of_one in Hi; [exact Hi|].
  simpl; tauto.
Qed.

Lemma combine_cross_Par_absorbs (a b : net) :
  (class_of a = cI -> is_ok (Isc a) = true) -> (exists q, admittance a = Ok q) ->
  (class_of b = cI -> is_ok (Isc b) = true) -> (exists q, admittance b = Ok q) ->
  degenerate_in_Par a \/ degenerate_in_Par b ->
  (degenerate_in_Par a /\ combine_cross_Par a b = Ok (Some b)) \/
  (degenerate_in_Par b /\ combine_cross_Par a b = Ok (Some a)).
Proof.
  intros Hva Hza Hvb Hzb Hdeg.
  destruct (degenerate_reads [cI] Isc a (reads_Isc_if_I a Hva)) as (d1 & E1 & I1).
  destruct (degenerate_reads [cI] Isc b (reads_Isc_if_I b Hvb)) as (d2 & E2 & I2).
  destruct (degenerate_reads [cY; cG] admittance a (fun _ => Hza)) as (d3 & E3 & I3).
  destruct (degenerate_reads [cY; cG] admittance b (fun _ => Hzb)) as (d4 & E4 & I4).
  rewrite !degenerate_in_Par_iff in *.
  unfold combine_cross_Par. rewrite E1, E2, E3, E4. simpl.
  destruct d1; [left; split; [left; apply I1|]; reflexivity|].
  destruct d2; [right; split; [left; apply I2|]; reflexivity|].
  destruct d3; [left; split; [right; apply I3|]; reflexivity|].
  destruct d4; [right; split; [right; apply I4|]; reflexivity|].
  exfalso. destruct Hdeg as [[H|H]|[H|H]];
    [apply I1 in H|apply I3 in H|apply I2 in H|apply I4 in H]; discriminate H.
Qed.

(** X19. In the pairwise-combine phase of [simplify], for two sibling
    leaves of different classes, each with one of its four quantities
    set (and, in a [Par], with an [Isc] that can be read if it is an
    [I]): when one of them is degenerate for the composite (in a [Ser],
    a [V] whose [Voc] is zero, or an [R] or [Z] whose impedance is zero;
    in a [Par], an [I] whose [Isc] is zero, or a [Y] or [G] whose
    admittance is zero), a degenerate one is absorbed: [_combine]
    returns the other leaf, unchanged, and [simplify] of the two-element
    composite is that leaf. *)
Theorem degenerate_element_absorbed (deep : bool) (l1 l2 : leaf sym) :
  resolvable l1 = true -> resolvable l2 = true ->
  class_of (Leaf l1) <> class_of (Leaf l2) ->
  let a := Leaf l1 in
  let b := Leaf l2 in
  (degenerate_in_Ser a \/ degenerate_in_Ser b ->
     (degenerate_in_Ser a /\ _combine cSer a b = Ok (Some b) /\
      simplify deep (Ser [a; b]) = Ok b) \/
     (degenerate_in_Ser b /\ _combine cSer a b = Ok (Some a) /\
      simplify deep (Ser [a; b]) = Ok a)) /\
  ((class_of a = cI -> is_ok (Isc a) = true) ->
   (class_of b = cI -> is_ok (Isc b) = true) ->
   degenerate_in_Par a \/ degenerate_in_Par b ->
     (degenerate_in_Par a /\ _combine cPar a b = Ok (Some b) /\
      simplify deep (Par [a; b]) = Ok b) \/
     (degenerate_in_Par b /\ _combine cPar a b = Ok (Some a) /\
      simplify deep (Par [a; b]) = Ok a)).
Proof.
  intros R1 R2 Hcls a b. subst a b.
  destruct (resolvable_reads l1 R1) as (Hz1 & Hy1 & Hv1).
  destruct (resolvable_reads l2 R2) as (Hz2 & Hy2 & Hv2).
  rewrite simplify_Ser_pair, simplify_Par_pair.
  unfold _combine. rewrite (bool_decide_eq_true_2 _ Hcls).
  split.
  - intros Hdeg.
    destruct (combine_cross_Ser_absorbs _ _ Hv1 Hz1 Hv2 Hz2 Hdeg) as [[D C]|[D C]];
      [left|right]; (split; [exact D|]); simpl; rewrite C; split; reflexivity.
  - intros Hi1 Hi2 Hdeg.
    destruct (combine_cross_Par_absorbs _ _ Hi1 Hy1 Hi2 Hy2 Hdeg) as [[D C]|[D C]];
      [left|right]; (split; [exact D|]); simpl; rewrite C; split; reflexivity.
Qed.

Lemma isinstance_source_class (l : leaf sym) (base final : cls) :
  (base = cVoltageSource /\ final = cV) \/ (base = cCurrentSource /\ final = cI) ->
  isinstance (Leaf l) base = true -> class_of (Leaf l) <> final ->
  isinstance (Leaf l) cV = false /\ isinstance (Leaf l) cI = false /\
  isinstance (Leaf l) cR = false /\ isinstance (Leaf l) cZ = false /\
  isinstance (Leaf l) cY = false /\ isinstance (Leaf l) cG = false /\
  class_of (Leaf l) <> cR.
Proof.
  unfold isinstance. cbn [class_of].
  intros [[-> ->]|[-> ->]]; destruct (body_class (attrs l)); cbn;
    intros H1 H2; try discriminate H1; try (exfalso; apply H2; reflexivity);
    repeat split; discriminate.
Qed.

(** C5, the code at the inputs where it departs from the claim: a
    source of zero value is absorbed only if it is of the class [V] (in
    a series) or [I] (in a parallel).  A voltage source of any other
    class ([Vdc], [Vac], [Vstep], [Vnoise], [sV], [v]) beside a resistor
    of non-zero resistance in a series is not combined with it,
    whatever its voltage, zero included, and [simplify] returns the
    series as it is; nor is a current source of a class other than [I]
    combined with a resistor in a parallel, whatever its current. *)
Theorem zero_source_not_absorbed (deep : bool) (l : leaf sym) (r : sym) :
  let R := Leaf (R_init r) in
  (isinstance (Leaf l) cVoltageSource = true -> class_of (Leaf l) <> cV ->
   seqb (cExpr r) (snum 0) = false ->
     _combine cSer (Leaf l) R = Ok None /\
     _combine cSer R (Leaf l) = Ok None /\
     simplify deep (Ser [Leaf l; R]) = Ok (Ser [Leaf l; R]) /\
     simplify deep (Ser [R; Leaf l]) = Ok (Ser [R; Leaf l])) /\
  (isinstance (Leaf l) cCurrentSource = true -> class_of (Leaf l) <> cI ->
     _combine cPar (Leaf l) R = Ok None /\
     _combine cPar R (Leaf l) = Ok None /\
     simplify deep (Par [Leaf l; R]) = Ok (Par [Leaf l; R]) /\
     simplify deep (Par [R; Leaf l]) = Ok (Par [R; Leaf l])).
Proof.
  intros R. subst R.
  rewrite !simplify_Ser_pair, !simplify_Par_pair.
  split.
  - intros Hs Hc Hr.
    destruct (isinstance_source_class l cVoltageSource cV (or_introl (conj eq_refl eq_refl))
                Hs Hc) as (HV & HI & HR & HZ & HY & HG & Hcls).
    assert (E1 : _combine cSer (Leaf l) (Leaf (R_init r)) = Ok None).
    { unfold _combine. rewrite bool_decide_eq_true_2 by exact Hcls.
      cbn [bool_decide decide_rel cls_eq_dec]. unfold combine_cross_Ser, degenerate.
      cbn [existsb]. rewrite HV, HR, HZ.
      cbn [orb mbind result_mbind result_bind isinstance class_of R_init attrs
           body_class issubclass issubclass_upto base_class bool_decide decide_rel
           impedance OnePort_impedance _Z q_eq0 qval Impedance].
      simpl. unfold q_eq0. simpl. rewrite Hr. reflexivity. }
    assert (E2 : _combine cSer (Leaf (R_init r)) (Leaf l) = Ok None).
    { unfold _combine. rewrite bool_decide_eq_true_2 by (intros H; apply Hcls; symmetry; exact H).
      cbn [bool_decide decide_rel cls_eq_dec]. unfold combine_cross_Ser, degenerate.
      cbn [existsb]. rewrite HV, HR, HZ.
      simpl. unfold q_eq0. simpl. rewrite Hr. reflexivity. }
    rewrite E1, E2. repeat split; reflexivity.
  - intros Hs Hc.
    destruct (isinstance_source_class l cCurrentSource cI (or_intror (conj eq_refl eq_refl))
                Hs Hc) as (HV & HI & HR & HZ & HY & HG & Hcls).
    assert (E1 : _combine cPar (Leaf l) (Leaf (R_init r)) = Ok None).
    { unfold _combine. rewrite bool_decide_eq_true_2 by exact Hcls.
      cbn [bool_decide decide_rel cls_eq_dec]. unfold combine_cross_Par, degenerate.
      cbn [existsb]. rewrite HI, HY, HG. reflexivity. }
    assert (E2 : _combine cPar (Leaf (R_init r)) (Leaf l) = Ok None).
    { unfold _combine. rewrite bool_decide_eq_true_2 by (intros H; apply Hcls; symmetry; exact H).
      cbn [bool_decide decide_rel cls_eq_dec]. unfold combine_cross_Par, degenerate.
      cbn [existsb]. rewrite HI, HY, HG. reflexivity. }
    rewrite E1, E2. repeat split; reflexivity.
Qed.

(** ** Thevenin and Norton equivalents *)

(** C6, as amended.  With [new] the simplified network, and [Z1] and
    [V1] the components that [cpt] makes of its impedance and of its
    open-circuit voltage after the choice of domain, [thevenin] returns
    [Z1] alone when [Voc] is zero, else [V1] alone when the impedance is
    zero, else the series [Ser(Z1, V1)].  Both components are made
    before these tests: when [cpt] raises on the voltage, or else on
    the impedance, so does [thevenin], in every case.  [norton] is the
    dual on [Isc], the admittance and [Par]: the admittance component
    [Y1] alone when [Isc] is zero, else the current component [I1]
    alone when the admittance is zero, else [Par(Y1, I1)]. *)
Theorem thevenin_norton_shape (n new : net) :
  simplify true n = Ok new ->
  (forall voc z, Voc new = Ok voc -> impedance new = Ok z ->
     (forall Z1 V1,
        cpt (snd (resolve_domain voc z)) = Ok V1 ->
        cpt (fst (resolve_domain voc z)) = Ok Z1 ->
        (q_eq0 voc = true -> thevenin n = Ok Z1) /\
        (q_eq0 voc = false -> q_eq0 z = true -> thevenin n = Ok V1) /\
        (q_eq0 voc = false -> q_eq0 z = false ->
           thevenin n = Ser_init [Z1; V1] /\
           (count_instances cI [Z1; V1] <= 1 -> thevenin n = Ok (Ser [Z1; V1])))) /\
     (forall e, cpt (snd (resolve_domain voc z)) = Err e -> thevenin n = Err e) /\
     (forall V1 e,
        cpt (snd (resolve_domain voc z)) = Ok V1 ->
        cpt (fst (resolve_domain voc z)) = Err e -> thevenin n = Err e)) /\
  (forall isc y, Isc new = Ok isc -> admittance new = Ok y ->
     (forall Y1 I1,
        cpt (snd (resolve_domain isc y)) = Ok I1 ->
        cpt (fst (resolve_domain isc y)) = Ok Y1 ->
        (q_eq0 isc = true -> norton n = Ok Y1) /\
        (q_eq0 isc = false -> q_eq0 y = true -> norton n = Ok I1) /\
        (q_eq0 isc = false -> q_eq0 y = false ->
           norton n = Par_init [Y1; I1] /\
           (count_instances cV [Y1; I1] <= 1 -> norton n = Ok (Par [Y1; I1])))) /\
     (forall e, cpt (snd (resolve_domain isc y)) = Err e -> norton n = Err e) /\
     (forall I1 e,
        cpt (snd (resolve_domain isc y)) = Ok I1 ->
        cpt (fst (resolve_domain isc y)) = Err e -> norton n = Err e)) /\
  (forall e, Voc new = Err e -> thevenin n = Err e) /\
  (forall voc e, Voc new = Ok voc -> impedance new = Err e -> thevenin n = Err e) /\
  (forall e, Isc new = Err e -> norton n = Err e) /\
  (forall isc e, Isc new = Ok isc -> admittance new = Err e -> norton n = Err e).
Proof.
  intros Hs. split; [|split; [|split; [|split; [|split]]]].
  - intros voc z Hv Hz. unfold thevenin.
    rewrite Hs. simpl. rewrite Hv. simpl. rewrite Hz. simpl.
    destruct (resolve_domain voc z) as [Zq Vq]. simpl.
    split; [|split].
    + intros Z1 V1 -> ->. simpl.
      split; [intros ->; reflexivity|].
      split; [intros -> ->; reflexivity|].
      intros -> ->. split; [reflexivity|]. intros Hc.
      apply Ser_init_value. exact Hc.
    + intros e ->. reflexivity.
    + intros V1 e -> ->. reflexivity.
  - intros isc y Hi Hy. unfold norton.
    rewrite Hs. simpl. rewrite Hi. simpl. rewrite Hy. simpl.
    destruct (resolve_domain isc y) as [Yq Iq]. simpl.
    split; [|split].
    + intros Y1 I1 -> ->. simpl.
      split; [intros ->; reflexivity|].
      split; [intros -> ->; reflexivity|].
      intros -> ->. split; [reflexivity|]. intros Hc.
      apply Par_init_value. exact Hc.
    + intros e ->. reflexivity.
    + intros I1 e -> ->. reflexivity.
  - intros e Hv. unfold thevenin. rewrite Hs. simpl. rewrite Hv. reflexivity.
  - intros voc e Hv Hz. unfold thevenin. rewrite Hs. simpl. rewrite Hv. simpl.
    rewrite Hz. reflexivity.
  - intros e Hi. unfold norton. rewrite Hs. simpl. rewrite Hi. reflexivity.
  - intros isc e Hi Hy. unfold norton. rewrite Hs. simpl. rewrite Hi. simpl.
    rewrite Hy. reflexivity.
Qed.

End Properties.

(** * Further properties *)

Section MoreProperties.

Context {E : Engine}.

Local Abbreviation Q := (quantity sym).
Local Abbreviation net := (oneport sym).

(** Induction on networks, with the arguments of a composite. *)
Lemma oneport_tree_ind (P : net -> Prop) :
  (forall l, P (Leaf l)) ->
  (forall args, Forall P args -> P (Par args)) ->
  (forall args, Forall P args -> P (Ser args)) ->
  forall n, P n.
Proof.
  intros HL HP HS. fix IH 1. intros [l|args|args].
  - apply HL.
  - apply HP. revert args. fix IHl 1. intros [|a args]; constructor;
      [apply IH|apply IHl].
  - apply HS. revert args. fix IHl 1. intros [|a args]; constructor;
      [apply IH|apply IHl].
Qed.

(** ** When the queries are defined *)

Lemma leaf_reads_defined (l : leaf sym) :
  is_ok (impedance (Leaf l)) = resolvable l /\
  is_ok (admittance (Leaf l)) = resolvable l /\
  is_ok (Voc (Leaf l)) = resolvable l.
Proof.
  unfold resolvable. simpl.
  unfold OnePort_Voc, OnePort_admittance, OnePort_impedance.
  destruct (_Z l), (_Y l), (_Voc l), (_Isc l); simpl; repeat split; reflexivity.
Qed.

(** X1. On a leaf, each of [impedance], [admittance] and [Voc] returns
    a value exactly when at least one of [_Z], [_Y], [_Voc], [_Isc] is
    set, and raises otherwise.  [Isc] raises too when none is set, and
    returns when [_Isc] is set; in between, [Voc] and [impedance] both
    return and [Isc] is their quotient, so that it returns exactly when
    the quotient does: a quantity set is not enough for [Isc]. *)
Theorem leaf_queries_defined_iff (l : leaf sym) :
  is_ok (impedance (Leaf l)) = resolvable l /\
  is_ok (admittance (Leaf l)) = resolvable l /\
  is_ok (Voc (Leaf l)) = resolvable l /\
  (resolvable l = false -> is_ok (Isc (Leaf l)) = false) /\
  (_Isc l <> None -> is_ok (Isc (Leaf l)) = true) /\
  (_Isc l = None -> resolvable l = true ->
     exists v z, Voc (Leaf l) = Ok v /\ impedance (Leaf l) = Ok z /\
                 Isc (Leaf l) = q_div v z).
Proof.
  destruct (leaf_reads_defined l) as (H1 & H2 & H3).
  split; [exact H1|]. split; [exact H2|]. split; [exact H3|].
  unfold resolvable. simpl.
  unfold OnePort_Isc, OnePort_Voc, OnePort_impedance.
  split; [|split].
  - destruct (_Z l), (_Y l), (_Voc l), (_Isc l); simpl; intros H;
      try discriminate H; reflexivity.
  - destruct (_Isc l); [reflexivity|]. intros H. exfalso. apply H. reflexivity.
  - intros ->.
    destruct (_Z l), (_Y l), (_Voc l); simpl; intros H; try discriminate H;
      eexists _, _; repeat split; reflexivity.
Qed.

Lemma sequence_ok {A : Type} (vals : list (result A)) :
  is_ok (sequence vals) = forallb is_ok vals.
Proof.
  induction vals as [|r vals IH]; simpl; [reflexivity|].
  destruct r as [a|e]; simpl; [|reflexivity].
  rewrite <- IH. destruct (sequence vals); reflexivity.
Qed.

(** The loop over reads that return, when they do, quantities of one
    kind: it fails only if a read does. *)
Lemma sum_loop_ok (k : qtag) (vals : list (result Q)) :
  Forall (fun r => forall q, r = Ok q -> qtag_of q = k) vals ->
  is_ok (sum_loop vals) = forallb is_ok vals.
Proof.
  intros Hk. rewrite <- sequence_ok.
  destruct (sequence vals) as [qs|e] eqn:Hs.
  - rewrite (sum_loop_sequence _ _ Hs).
    rewrite (quantity_sum_one_kind k); [reflexivity|].
    apply sequence_values in Hs. subst vals.
    induction qs as [|q qs IH]; constructor.
    + inversion Hk as [|? ? Hq _]; subst. apply Hq. reflexivity.
    + apply IH. inversion Hk; assumption.
  - apply (sum_loop_read_fails _ _ Hs).
Qed.

Lemma forallb_map_ok {A B : Type} (f : A -> result B) (g : A -> bool) (l : list A) :
  Forall (fun a => is_ok (f a) = g a) l ->
  forallb is_ok (map f l) = forallb g l.
Proof.
  induction 1 as [|a l Ha _ IH]; simpl; [reflexivity|]. rewrite Ha, IH. reflexivity.
Qed.

Lemma Forall_under_forallb {A : Type} (c : A -> bool) (P : A -> Prop) (l : list A) :
  forallb c l = true -> Forall (fun a => c a = true -> P a) l -> Forall P l.
Proof.
  intros Hc. induction 1 as [|a l Ha _ IH]; constructor;
    simpl in Hc; apply andb_true_iff in Hc; destruct Hc as [Hc1 Hc2];
    [apply Ha; exact Hc1|apply IH; exact Hc2].
Qed.

(** What the constructors store is of its own kind, but for [G] and
    [Y]. *)
Lemma constructors_own_kinds (x y w u : sym) (o : option sym) (nid : option nat) :
  Forall (fun l => own_kinds l = true)
    [R_init x; L_init x o; C_init x o; CPE_init x o; Z_init x;
     sV_init x; V_init x; Vstep_init x; Vdc_init x; Vac_init x o o;
     Vnoise_init x nid; v_init x;
     sI_init x; I_init x; Istep_init x; Idc_init x; Iac_init x o o;
     Inoise_init x nid; i_init x;
     CCVS_init; CCCS_init; VCVS_init; VCCS_init; W_init; O_init; P_init] /\
  own_kinds (G_init x) = false /\ own_kinds (Y_init y) = false /\
  (forall l, Xtal_init x y w u = Ok l -> own_kinds l = true) /\
  (forall l, FerriteBead_init x y w u = Ok l -> own_kinds l = true).
Proof.
  split; [repeat constructor|]. split; [reflexivity|]. split; [reflexivity|].
  split; intros l [= <-]; reflexivity.
Qed.

(** X2. In a network whose leaves store immittances of their own kinds
    ([_Z], if set, an [Impedance] and [_Y], if set, an [Admittance], as
    every class but [G] and [Y] stores them), the impedance and the
    admittance are defined exactly when every leaf has one of its four
    quantities set, and they are an [Impedance] and an [Admittance]; an
    empty composite has both. *)
Theorem immittance_defined_iff (n : net) :
  all_leaves own_kinds n = true ->
  (is_ok (impedance n) = all_leaves resolvable n /\
   is_ok (admittance n) = all_leaves resolvable n) /\
  (forall z, impedance n = Ok z -> qtag_of z = TImpedance) /\
  (forall y, admittance n = Ok y -> qtag_of y = TAdmittance).
Proof.
  induction n as [l|args IH|args IH] using oneport_tree_ind; intros Hown.
  - destruct (leaf_reads_defined l) as (H1 & H2 & _).
    split; [split; assumption|].
    simpl in Hown. unfold own_kinds in Hown. apply andb_true_iff in Hown.
    destruct Hown as [HZ HY]. simpl. unfold OnePort_admittance, OnePort_impedance.
    split.
    + intros z. destruct (_Z l) as [z'|].
      * intros [= <-]. apply bool_decide_eq_true in HZ. exact HZ.
      * destruct (_Y l), (_Voc l), (_Isc l); intros [= <-]; reflexivity.
    + intros y. destruct (_Y l) as [y'|].
      * intros [= <-]. apply bool_decide_eq_true in HY. exact HY.
      * destruct (_Z l), (_Voc l), (_Isc l); simpl; intros [= <-]; reflexivity.
  - simpl in Hown. pose proof (Forall_under_forallb _ _ _ Hown IH) as IH'.
    assert (Hy : is_ok (Par_admittance (map admittance args))
                 = forallb (all_leaves resolvable) args).
    { unfold Par_admittance.
      rewrite <- (forallb_map_ok admittance (all_leaves resolvable) args).
      - rewrite <- (sum_loop_ok TAdmittance).
        + destruct (sum_loop _); reflexivity.
        + apply Forall_map. eapply Forall_impl; [exact IH'|].
          intros a (_ & _ & H). exact H.
      - eapply Forall_impl; [exact IH'|]. intros a ((_ & H) & _). exact H. }
    split; [|split].
    + simpl. split; [|exact Hy].
      unfold Par_impedance. rewrite <- Hy.
      destruct (Par_admittance (map admittance args)); reflexivity.
    + simpl. unfold Par_impedance.
      destruct (Par_admittance (map admittance args)); simpl; intros z [= <-].
      reflexivity.
    + simpl. unfold Par_admittance.
      destruct (sum_loop (map admittance args)); simpl; intros y [= <-].
      reflexivity.
  - simpl in Hown. pose proof (Forall_under_forallb _ _ _ Hown IH) as IH'.
    assert (Hz : is_ok (Ser_impedance (map impedance args))
                 = forallb (all_leaves resolvable) args).
    { unfold Ser_impedance.
      rewrite <- (forallb_map_ok impedance (all_leaves resolvable) args).
      - rewrite <- (sum_loop_ok TImpedance).
        + destruct (sum_loop _); reflexivity.
        + apply Forall_map. eapply Forall_impl; [exact IH'|].
          intros a (_ & H & _). exact H.
      - eapply Forall_impl; [exact IH'|]. intros a ((H & _) & _). exact H. }
    split; [|split].
    + simpl. split; [exact Hz|].
      unfold OnePort_admittance. rewrite <- Hz.
      destruct (Ser_impedance (map impedance args)); reflexivity.
    + simpl. unfold Ser_impedance.
      destruct (sum_loop (map impedance args)); simpl; intros z [= <-].
      reflexivity.
    + simpl. unfold OnePort_admittance, Ser_impedance.
      destruct (sum_loop (map impedance args)); simpl; intros y [= <-].
      reflexivity.
Qed.

(** X20. A series of a resistor and a conductance, or of a resistor and
    a general admittance, has no impedance, in either order: [G] and
    [Y] store as [_Z] the quantity [1 / Admittance(..)], of the kind
    [Admittance], the [_Z] of [R] is an [Impedance], each of the two
    leaves has its impedance, and the addition of the two in
    [Ser.impedance] raises.  The admittance of the series, the
    reciprocal of that impedance, raises with it. *)
Theorem series_of_R_and_G_has_no_impedance (r g : sym) :
  let R := Leaf (R_init r) in
  let G := Leaf (G_init g) in
  let Y := Leaf (Y_init g) in
  impedance R = Ok (Impedance (cExpr r)) /\
  impedance G = Ok (mkq TAdmittance (sdiv (snum 1) (cExpr g))) /\
  impedance Y = Ok (mkq TAdmittance (sdiv (snum 1) g)) /\
  impedance (Ser [R; G]) = Err (add_error TImpedance TAdmittance) /\
  impedance (Ser [G; R]) = Err (add_error TAdmittance TImpedance) /\
  impedance (Ser [R; Y]) = Err (add_error TImpedance TAdmittance) /\
  impedance (Ser [Y; R]) = Err (add_error TAdmittance TImpedance) /\
  admittance (Ser [R; G]) = Err (add_error TImpedance TAdmittance).
Proof. repeat split. Qed.

(** ** Warnings of the constructors *)

Section WarningFacts.
Variable c : cls.
Variable msg : string.

Lemma check_pairs_from_none (a : net) (rest : list net) :
  isinstance a c = false -> count_instances c rest = 0 ->
  check_pairs_from c msg a rest = Ok [].
Proof.
  intros Ha. induction rest as [|b rest IH]; simpl; [reflexivity|].
  rewrite Ha. simpl. destruct (isinstance b c); simpl; [discriminate|].
  intros H. rewrite (IH H). reflexivity.
Qed.

(** The source before the arguments [rest]: one warning for each of
    them, in their order. *)
Lemma check_pairs_from_source (a : net) (rest : list net) :
  isinstance a c = true -> count_instances c rest = 0 ->
  check_pairs_from c msg a rest = Ok (map (fun b => Redundant b a) rest).
Proof.
  intros Ha. induction rest as [|b rest IH]; simpl; [reflexivity|].
  rewrite Ha. simpl. destruct (isinstance b c) eqn:Hb; simpl; [discriminate|].
  intros H. rewrite (IH H). reflexivity.
Qed.

(** An argument [a] before the source [src]: one warning. *)
Lemma check_pairs_from_one (a src : net) (pre post : list net) :
  isinstance a c = false -> isinstance src c = true ->
  count_instances c pre = 0 -> count_instances c post = 0 ->
  check_pairs_from c msg a (pre ++ src :: post) = Ok [Redundant a src].
Proof.
  intros Ha Hs. induction pre as [|b pre IH]; simpl.
  - intros _ Hpost. rewrite Ha, Hs. simpl.
    rewrite (check_pairs_from_none a post Ha Hpost). reflexivity.
  - rewrite Ha. simpl. destruct (isinstance b c) eqn:Hb; simpl; [discriminate|].
    intros Hpre Hpost. rewrite (IH Hpre Hpost). reflexivity.
Qed.

Lemma check_pairs_none (args : list net) :
  count_instances c args = 0 -> check_pairs c msg args = Ok [].
Proof.
  induction args as [|a rest IH]; simpl; [reflexivity|].
  destruct (isinstance a c) eqn:Ha; simpl; [discriminate|].
  intros H. rewrite (check_pairs_from_none a rest Ha H), (IH H). reflexivity.
Qed.

Lemma check_pairs_one (src : net) (pre post : list net) :
  isinstance src c = true ->
  count_instances c pre = 0 -> count_instances c post = 0 ->
  check_pairs c msg (pre ++ src :: post)
  = Ok (map (fun a => Redundant a src) (pre ++ post)).
Proof.
  intros Hs. induction pre as [|a pre IH]; simpl.
  - intros _ Hpost. rewrite (check_pairs_from_source src post Hs Hpost).
    rewrite (check_pairs_none post Hpost). simpl. rewrite app_nil_r. reflexivity.
  - destruct (isinstance a c) eqn:Ha; simpl; [discriminate|].
    intros Hpre Hpost.
    rewrite (check_pairs_from_one a src pre post Ha Hs Hpre Hpost).
    rewrite (IH Hpre Hpost). reflexivity.
Qed.
End WarningFacts.

(** X3. A [Par] with no [V] among its arguments is constructed without
    a warning.  With exactly one [V] among its arguments, [src] after
    the arguments [pre] and before the arguments [post], it is
    constructed with one warning for each other argument and no other,
    in the order of the arguments, each naming that argument as the
    redundant component and [src] as the source.  The same holds of
    [Ser] and [I]. *)
Theorem redundancy_warnings (pre post : list net) (src : net) :
  (forall args, count_instances cV args = 0 -> Par_warnings args = Ok []) /\
  (isinstance src cV = true ->
   count_instances cV pre = 0 -> count_instances cV post = 0 ->
     Par_warnings (pre ++ src :: post)
     = Ok (map (fun a => Redundant a src) (pre ++ post))) /\
  (forall args, count_instances cI args = 0 -> Ser_warnings args = Ok []) /\
  (isinstance src cI = true ->
   count_instances cI pre = 0 -> count_instances cI post = 0 ->
     Ser_warnings (pre ++ src :: post)
     = Ok (map (fun a => Redundant a src) (pre ++ post))).
Proof.
  unfold Par_warnings, Ser_warnings.
  split; [intros args; apply check_pairs_none|]. split; [apply check_pairs_one|].
  split; [intros args; apply check_pairs_none|apply check_pairs_one].
Qed.

(** ** Sources that [simplify] rejects *)

Lemma class_I_attrs (l : leaf sym) : class_of (Leaf l) = cI -> attrs l = bI.
Proof. simpl. destruct (attrs l); simpl; congruence. Qed.

Lemma class_V_attrs (l : leaf sym) : class_of (Leaf l) = cV -> attrs l = bV.
Proof. simpl. destruct (attrs l); simpl; congruence. Qed.

(** X4. Two current sources of class [I] in parallel are a network that
    [Par] constructs and that [simplify] cannot simplify: [_combine]
    forms [I(arg1 + arg2)], whose argument is the series of the two
    sources, and the constructor of [Ser] raises. *)
Theorem parallel_I_pair_raises (deep : bool) (l1 l2 : leaf sym) :
  class_of (Leaf l1) = cI -> class_of (Leaf l2) = cI ->
  Par_init [Leaf l1; Leaf l2] = Ok (Par [Leaf l1; Leaf l2]) /\
  simplify deep (Par [Leaf l1; Leaf l2]) = Err (ValueError Ser_msg).
Proof.
  intros H1 H2. split.
  - apply Par_init_value. simpl. unfold isinstance. rewrite H1, H2. simpl. lia.
  - rewrite simplify_Par_pair.
    apply class_I_attrs in H1, H2.
    destruct l1 as [b1 ? ? ? ?], l2 as [b2 ? ? ? ?]. simpl in H1, H2. subst b1 b2.
    reflexivity.
Qed.

Lemma simplify_Ser_unfold (deep : bool) (args : list net) :
  simplify deep (Ser args)
  = ('(new, newargs) ← flatten_loop (simplify deep) cSer args false [];
     simplify_scan cSer (Ser args) new newargs).
Proof. reflexivity. Qed.

Lemma simplify_Par_unfold (deep : bool) (args : list net) :
  simplify deep (Par args)
  = ('(new, newargs) ← flatten_loop (simplify deep) cPar args false [];
     simplify_scan cPar (Par args) new newargs).
Proof. reflexivity. Qed.

Lemma Ser_init_two_I (l1 l2 l3 : list net) (a b : net) :
  class_of a = cI -> class_of b = cI ->
  Ser_init (l1 ++ a :: l2 ++ b :: l3) = Err (ValueError Ser_msg).
Proof.
  intros Ha Hb. unfold Ser_init, Ser_warnings.
  rewrite check_pairs_two; [reflexivity| |];
    rewrite isinstance_I_exact; apply bool_decide_eq_true; assumption.
Qed.

Lemma Par_init_two_V (l1 l2 l3 : list net) (a b : net) :
  class_of a = cV -> class_of b = cV ->
  Par_init (l1 ++ a :: l2 ++ b :: l3) = Err (ValueError Par_msg).
Proof.
  intros Ha Hb. unfold Par_init, Par_warnings.
  rewrite check_pairs_two; [reflexivity| |];
    rewrite isinstance_V_exact; apply bool_decide_eq_true; assumption.
Qed.

(** Next to a leaf of another class, an [I] in a series is kept or
    nothing is combined; so is a [V] in a parallel. *)
Lemma combine_Ser_I_other (a b : leaf sym) :
  class_of (Leaf a) = cI -> class_of (Leaf b) <> cI -> resolvable b = true ->
  _combine cSer (Leaf a) (Leaf b) = Ok (Some (Leaf a)) \/
  _combine cSer (Leaf a) (Leaf b) = Ok None.
Proof.
  intros Ha Hb Rb.
  destruct (resolvable_reads b Rb) as (Hz & _ & Hv).
  destruct (degenerate_reads [cV] Voc (Leaf b) (fun _ => Hv)) as (d2 & E2 & _).
  destruct (degenerate_reads [cR; cZ] impedance (Leaf b) (fun _ => Hz)) as (d4 & E4 & _).
  unfold _combine. rewrite bool_decide_eq_true_2 by congruence.
  apply class_I_attrs in Ha. destruct a as [ba za ya va ia]. simpl in Ha. subst ba.
  simpl bool_decide. unfold combine_cross_Ser.
  change (degenerate [cV] Voc (Leaf (mkLeaf bI za ya va ia))) with (@Ok bool false).
  change (degenerate [cR; cZ] impedance (Leaf (mkLeaf bI za ya va ia)))
    with (@Ok bool false).
  rewrite E2, E4. simpl.
  destruct d2; [left; reflexivity|]. destruct d4; [left|right]; reflexivity.
Qed.

Lemma combine_Par_V_other (a b : leaf sym) :
  class_of (Leaf a) = cV -> class_of (Leaf b) <> cV -> resolvable b = true ->
  (class_of (Leaf b) = cI -> is_ok (Isc (Leaf b)) = true) ->
  _combine cPar (Leaf a) (Leaf b) = Ok (Some (Leaf a)) \/
  _combine cPar (Leaf a) (Leaf b) = Ok None.
Proof.
  intros Ha Hb Rb Hi.
  destruct (resolvable_reads b Rb) as (_ & Hy & _).
  destruct (degenerate_reads [cI] Isc (Leaf b) (reads_Isc_if_I (Leaf b) Hi))
    as (d2 & E2 & _).
  destruct (degenerate_reads [cY; cG] admittance (Leaf b) (fun _ => Hy))
    as (d4 & E4 & _).
  unfold _combine. rewrite bool_decide_eq_true_2 by congruence.
  apply class_V_attrs in Ha. destruct a as [ba za ya va ia]. simpl in Ha. subst ba.
  simpl bool_decide. unfold combine_cross_Par.
  change (degenerate [cI] Isc (Leaf (mkLeaf bV za ya va ia))) with (@Ok bool false).
  change (degenerate [cY; cG] admittance (Leaf (mkLeaf bV za ya va ia)))
    with (@Ok bool false).
  rewrite E2, E4. simpl.
  destruct d2; [left; reflexivity|]. destruct d4; [left|right]; reflexivity.
Qed.

(** Next to a [V] in a parallel, an [I] whose [Isc] cannot be read: the
    read is made, and its error is the error of [_combine]. *)
Lemma combine_Par_V_unreadable (a b : leaf sym) (e : error) :
  class_of (Leaf a) = cV -> class_of (Leaf b) = cI -> Isc (Leaf b) = Err e ->
  _combine cPar (Leaf a) (Leaf b) = Err e.
Proof.
  intros Ha Hb He.
  unfold _combine. rewrite bool_decide_eq_true_2 by congruence.
  apply class_V_attrs in Ha. apply class_I_attrs in Hb.
  destruct a as [ba za ya va ia], b as [bb zb yb vb ib]. simpl in Ha, Hb. subst ba bb.
  simpl bool_decide. unfold combine_cross_Par.
  change (degenerate [cI] Isc (Leaf (mkLeaf bV za ya va ia))) with (@Ok bool false).
  cbn [mbind result_mbind result_bind]. unfold degenerate.
  change (existsb (isinstance (Leaf (mkLeaf bI zb yb vb ib))) [cI]) with true.
  cbn iota. rewrite He. reflexivity.
Qed.

(** X5. Nesting hides an illegal topology from the constructors, and
    [simplify] raises on it: with [a] and [c] of class [I] and [b] any
    other leaf with a quantity set, [Ser(Ser(a, b), c)] is constructed
    without an error, and its [simplify] raises the error of two
    current sources in series.  Dually for [V] and [Par]: the error
    of two voltage sources in parallel, unless [b] is an [I] whose
    [Isc] cannot be read (an [I] without its [_Isc]), in which case
    [simplify] raises the error of that read. *)
Theorem nested_sources_raise_in_simplify (deep : bool) (a b c : leaf sym) :
  resolvable b = true ->
  (class_of (Leaf a) = cI -> class_of (Leaf c) = cI -> class_of (Leaf b) <> cI ->
     Ser_init [Leaf a; Leaf b] = Ok (Ser [Leaf a; Leaf b]) /\
     Ser_init [Ser [Leaf a; Leaf b]; Leaf c] = Ok (Ser [Ser [Leaf a; Leaf b]; Leaf c]) /\
     simplify deep (Ser [Ser [Leaf a; Leaf b]; Leaf c]) = Err (ValueError Ser_msg)) /\
  (class_of (Leaf a) = cV -> class_of (Leaf c) = cV -> class_of (Leaf b) <> cV ->
     Par_init [Leaf a; Leaf b] = Ok (Par [Leaf a; Leaf b]) /\
     Par_init [Par [Leaf a; Leaf b]; Leaf c] = Ok (Par [Par [Leaf a; Leaf b]; Leaf c]) /\
     ((class_of (Leaf b) = cI -> is_ok (Isc (Leaf b)) = true) ->
        simplify deep (Par [Par [Leaf a; Leaf b]; Leaf c]) = Err (ValueError Par_msg)) /\
     (forall e, class_of (Leaf b) = cI -> Isc (Leaf b) = Err e ->
        simplify deep (Par [Par [Leaf a; Leaf b]; Leaf c]) = Err e)).
Proof.
  intros Rb. split; intros Ha Hc Hb.
  - assert (Ib : isinstance (Leaf b) cI = false)
      by (rewrite isinstance_I_exact; apply bool_decide_eq_false; exact Hb).
    assert (Ia : isinstance (Leaf a) cI = true)
      by (rewrite isinstance_I_exact; apply bool_decide_eq_true; exact Ha).
    assert (Ic : isinstance (Leaf c) cI = true)
      by (rewrite isinstance_I_exact; apply bool_decide_eq_true; exact Hc).
    split; [apply Ser_init_value; simpl; rewrite Ia, Ib; simpl; lia|].
    split; [apply Ser_init_value; simpl; rewrite Ic; simpl; lia|].
    rewrite simplify_Ser_unfold. cbn [flatten_loop].
    change (isinstance (Ser [Leaf a; Leaf b]) cParSer) with true.
    cbn iota. rewrite simplify_Ser_pair, leaf_not_ParSer.
    destruct (combine_Ser_I_other a b Ha Hb Rb) as [-> | ->];
      cbn [pair_outcome mbind result_mbind result_bind].
    + rewrite bool_decide_eq_false_2
        by (change (class_of (Leaf a)) with (body_class (attrs a));
            destruct (attrs a); simpl; discriminate).
      cbn [flatten_loop app mbind result_mbind result_bind]. unfold simplify_scan.
      cbn [ParSer_init].
      pose proof (Ser_init_two_I [] [] [] (Leaf a) (Leaf c) Ha Hc) as HE. cbn [app] in HE.
      rewrite HE. reflexivity.
    + cbn [class_of bool_decide decide_rel]. simpl bool_decide.
      cbn [flatten_loop app args_of mbind result_mbind result_bind].
      unfold simplify_scan. cbn [ParSer_init].
      pose proof (Ser_init_two_I [] [Leaf b] [] (Leaf a) (Leaf c) Ha Hc) as HE. cbn [app] in HE.
      rewrite HE. reflexivity.
  - assert (Ib : isinstance (Leaf b) cV = false)
      by (rewrite isinstance_V_exact; apply bool_decide_eq_false; exact Hb).
    assert (Ia : isinstance (Leaf a) cV = true)
      by (rewrite isinstance_V_exact; apply bool_decide_eq_true; exact Ha).
    assert (Ic : isinstance (Leaf c) cV = true)
      by (rewrite isinstance_V_exact; apply bool_decide_eq_true; exact Hc).
    split; [apply Par_init_value; simpl; rewrite Ia, Ib; simpl; lia|].
    split; [apply Par_init_value; simpl; rewrite Ic; simpl; lia|].
    rewrite simplify_Par_unfold. cbn [flatten_loop].
    change (isinstance (Par [Leaf a; Leaf b]) cParSer) with true.
    cbn iota. rewrite simplify_Par_pair, leaf_not_ParSer.
    split; [intros HIb|intros e HbI He;
                       rewrite (combine_Par_V_unreadable a b e Ha HbI He);
                       reflexivity].
    destruct (combine_Par_V_other a b Ha Hb Rb HIb) as [-> | ->];
      cbn [pair_outcome mbind result_mbind result_bind].
    + rewrite bool_decide_eq_false_2
        by (change (class_of (Leaf a)) with (body_class (attrs a));
            destruct (attrs a); simpl; discriminate).
      cbn [flatten_loop app mbind result_mbind result_bind]. unfold simplify_scan.
      cbn [ParSer_init].
      pose proof (Par_init_two_V [] [] [] (Leaf a) (Leaf c) Ha Hc) as HE. cbn [app] in HE.
      rewrite HE. reflexivity.
    + cbn [class_of bool_decide decide_rel]. simpl bool_decide.
      cbn [flatten_loop app args_of mbind result_mbind result_bind].
      unfold simplify_scan. cbn [ParSer_init].
      pose proof (Par_init_two_V [] [Leaf b] [] (Leaf a) (Leaf c) Ha Hc) as HE. cbn [app] in HE.
      rewrite HE. reflexivity.
Qed.

(** ** [expand] *)

Lemma sequence_map_ok {A B : Type} (f : A -> result B) (l : list A) (l' : list B) :
  sequence (map f l) = Ok l' -> Forall2 (fun a b => f a = Ok b) l l'.
Proof.
  revert l'. induction l as [|a l IH]; simpl; intros l'.
  - intros [= <-]. constructor.
  - destruct (f a) as [b|e] eqn:Ha; simpl; [|discriminate].
    destruct (sequence (map f l)) as [bs|e]; simpl; [|discriminate].
    intros [= <-]. constructor; [exact Ha|apply IH; reflexivity].
Qed.

Lemma sequence_map_fixed {A : Type} (f : A -> result A) (l : list A) :
  Forall (fun a => f a = Ok a) l -> sequence (map f l) = Ok l.
Proof.
  induction 1 as [|a l Ha _ IH]; simpl; [reflexivity|]. rewrite Ha, IH. reflexivity.
Qed.

Lemma Par_init_inv (args : list net) (m : net) :
  Par_init args = Ok m -> m = Par args /\ count_instances cV args <= 1.
Proof.
  intros H. pose proof (Par_init_ok args) as Hok. rewrite H in Hok. simpl in Hok.
  symmetry in Hok. apply Nat.leb_le in Hok. split; [|exact Hok].
  rewrite (Par_init_value args Hok) in H. congruence.
Qed.

Lemma Ser_init_inv (args : list net) (m : net) :
  Ser_init args = Ok m -> m = Ser args /\ count_instances cI args <= 1.
Proof.
  intros H. pose proof (Ser_init_ok args) as Hok. rewrite H in Hok. simpl in Hok.
  symmetry in Hok. apply Nat.leb_le in Hok. split; [|exact Hok].
  rewrite (Ser_init_value args Hok) in H. congruence.
Qed.

(** X6. When [expand] returns a network, that network has no [Xtal]
    and no [FerriteBead] leaf, every composite in it is one that its
    constructor accepts, and expanding it again returns it unchanged. *)
Theorem expand_result (n m : net) :
  expand n = Ok m ->
  all_leaves (fun l => negb (is_compound l)) m = true /\
  well_constructed m = true /\
  expand m = Ok m.
Proof.
  revert m. induction n as [l|args IH|args IH] using oneport_tree_ind; intros m.
  - simpl. unfold is_compound.
    destruct l as [b z y v i]. simpl.
    destruct b; try (intros [= <-]; repeat split; reflexivity).
  - cbn [expand].
    destruct (sequence (map expand args)) as [newargs|e] eqn:Hseq;
      cbn [mbind result_mbind result_bind]; [|discriminate].
    intros Hm. apply Par_init_inv in Hm. destruct Hm as [-> Hc].
    apply sequence_map_ok in Hseq.
    assert (Hall : Forall (fun b => all_leaves (fun l => negb (is_compound l)) b = true /\
                                    well_constructed b = true /\ expand b = Ok b) newargs).
    { clear Hc. induction Hseq as [|a b args newargs Hab _ IHseq];
        [constructor|].
      inversion IH as [|? ? Ha IH']; subst. constructor; [apply Ha, Hab|].
      apply IHseq, IH'. }
    clear IH Hseq. split; [|split].
    + simpl. apply forallb_forall. intros b Hb.
      rewrite Forall_forall in Hall. apply list_elem_of_In in Hb.
      apply (Hall b Hb).
    + simpl. apply andb_true_iff. split; [apply Nat.leb_le; exact Hc|].
      apply forallb_forall. intros b Hb.
      rewrite Forall_forall in Hall. apply list_elem_of_In in Hb.
      apply (Hall b Hb).
    + cbn [expand]. rewrite sequence_map_fixed.
      * cbn [mbind result_mbind result_bind]. apply Par_init_value. exact Hc.
      * eapply Forall_impl; [exact Hall|]. intros b (_ & _ & H). exact H.
  - cbn [expand].
    destruct (sequence (map expand args)) as [newargs|e] eqn:Hseq;
      cbn [mbind result_mbind result_bind]; [|discriminate].
    intros Hm. apply Ser_init_inv in Hm. destruct Hm as [-> Hc].
    apply sequence_map_ok in Hseq.
    assert (Hall : Forall (fun b => all_leaves (fun l => negb (is_compound l)) b = true /\
                                    well_constructed b = true /\ expand b = Ok b) newargs).
    { clear Hc. induction Hseq as [|a b args newargs Hab _ IHseq];
        [constructor|].
      inversion IH as [|? ? Ha IH']; subst. constructor; [apply Ha, Hab|].
      apply IHseq, IH'. }
    clear IH Hseq. split; [|split].
    + simpl. apply forallb_forall. intros b Hb.
      rewrite Forall_forall in Hall. apply list_elem_of_In in Hb.
      apply (Hall b Hb).
    + simpl. apply andb_true_iff. split; [apply Nat.leb_le; exact Hc|].
      apply forallb_forall. intros b Hb.
      rewrite Forall_forall in Hall. apply list_elem_of_In in Hb.
      apply (Hall b Hb).
    + cbn [expand]. rewrite sequence_map_fixed.
      * cbn [mbind result_mbind result_bind]. apply Ser_init_value. exact Hc.
      * eapply Forall_impl; [exact Hall|]. intros b (_ & _ & H). exact H.
Qed.

(** X7. [Xtal(C0, R1, L1, C1)] is constructed without an error for all
    parameters; its [expand()] is the series [R(R1) + L(L1) + C(C1)] in
    parallel with [C(C0)]; the impedance of the crystal is the stored
    [_Z], which is the impedance of that expansion: the reciprocal of
    the sum of the admittance of the series branch (itself the
    reciprocal of [0 + (0 + R1 + s*L1) + 1/(s*C1)]) and of the
    admittance of [C(C0)]. *)
Theorem Xtal_is_its_expansion (C0 R1 L1 C1 : sym) :
  let c0 := cExpr C0 in
  let r1 := cExpr R1 in
  let l1 := cExpr L1 in
  let c1 := cExpr C1 in
  let branch :=
    Ser [Ser [Leaf (R_init r1); Leaf (L_init l1 None)]; Leaf (C_init c1 None)] in
  let model := Par [branch; Leaf (C_init c0 None)] in
  let z_branch :=
    Impedance (sadd (sadd (snum 0)
                       (sadd (sadd (snum 0) (cExpr r1)) (smul sym_s (cExpr l1))))
                    (sdiv (snum 1) (smul sym_s (cExpr c1)))) in
  let z_c0 := Impedance (sdiv (snum 1) (smul sym_s (cExpr c0))) in
  let z :=
    Impedance (qval (q_recip (Admittance
      (sadd (sadd (snum 0) (qval (q_recip z_branch))) (qval (q_recip z_c0)))))) in
  exists x : leaf sym,
    Xtal_init C0 R1 L1 C1 = Ok x /\
    attrs x = bXtal c0 r1 l1 c1 /\
    expand (Leaf x) = Ok model /\
    impedance branch = Ok z_branch /\
    impedance model = Ok z /\
    _Z x = Some z /\
    impedance (Leaf x) = Ok z.
Proof.
  intros c0 r1 l1 c1 branch model z_branch z_c0 z.
  eexists. repeat split; reflexivity.
Qed.

(** ** Invariants of [simplify] *)

(** Case analysis on an innermost scrutinee of the goal. *)
Ltac split_scrutinee :=
  match goal with
  | |- context [match ?x with _ => _ end] =>
      lazymatch x with
      | context [match _ with _ => _ end] => fail
      | _ => destruct x
      end
  end.

(** What [_combine] returns is one of its arguments or a new leaf. *)
Lemma combine_result_cases (k : cls) (a b c : net) :
  _combine k a b = Ok (Some c) -> c = a \/ c = b \/ exists l, c = Leaf l.
Proof.
  unfold _combine, combine_cross_Ser, combine_cross_Par, combine_same_Ser,
    combine_same_Par, mbind, result_mbind, result_bind.
  repeat split_scrutinee;
    intros H; try discriminate H; injection H as H; subst; eauto.
Qed.

Lemma leaf_class_not_composite (l : leaf sym) :
  class_of (Leaf l) <> cPar /\ class_of (Leaf l) <> cSer.
Proof. simpl. destruct (attrs l); split; discriminate. Qed.

Section SimplifyInvariant.
Variable G : net -> bool.
Hypothesis G_leaf : forall l, G (Leaf l) = true.
Hypothesis G_args :
  forall n, G n = true -> Forall (fun a => G a = true) (args_of n).
Hypothesis G_Par :
  forall args, count_instances cV args <= 1 ->
               Forall (fun a => G a = true) args -> G (Par args) = true.
Hypothesis G_Ser :
  forall args, count_instances cI args <= 1 ->
               Forall (fun a => G a = true) args -> G (Ser args) = true.

Section OneClass.
Variable k : cls.
Hypothesis k_composite : k = cPar \/ k = cSer.

Lemma good_leaf (l : leaf sym) : good_arg G k (Leaf l).
Proof using G_leaf k_composite.
  split; [reflexivity|]. split; [apply G_leaf|].
  destruct (leaf_class_not_composite l) as [HP HS].
  destruct k_composite as [-> | ->]; assumption.
Qed.

Lemma not_ParSer_leaf (n : net) :
  isinstance n cParSer = false -> exists l, n = Leaf l.
Proof. destruct n as [l|args|args]; [eauto|discriminate|discriminate]. Qed.

Lemma flat_node (args : list net) :
  Forall (good_arg G k) args -> flat (node k args) = true.
Proof using k_composite.
  intros H. destruct k_composite as [-> | ->]; simpl;
    induction H as [|a args (Hf & _ & Hc) _ IH]; simpl; try reflexivity;
    rewrite Hf, IH, bool_decide_eq_false_2 by exact Hc; reflexivity.
Qed.

Lemma flat_args_good (args : list net) :
  forallb (fun arg => flat arg && negb (bool_decide (class_of arg = k))) args = true ->
  Forall (fun a => G a = true) args -> Forall (good_arg G k) args.
Proof.
  intros Hf Ha. induction Ha as [|a args Hga _ IH]; [constructor|].
  simpl in Hf. apply andb_true_iff in Hf. destruct Hf as [Hfa Hf].
  apply andb_true_iff in Hfa. destruct Hfa as [Hfa Hca].
  apply negb_true_iff, bool_decide_eq_false in Hca.
  constructor; [repeat split; assumption|apply IH; exact Hf].
Qed.

Lemma flat_node_inv (n : net) :
  flat n = true -> G n = true -> class_of n = k ->
  n = node k (args_of n) /\ Forall (good_arg G k) (args_of n).
Proof using G_args k_composite.
  intros Hf Hg Hc. pose proof (G_args n Hg) as Ha.
  destruct n as [l|args|args].
  - destruct (leaf_class_not_composite l).
    destruct k_composite; congruence.
  - simpl in Hc. split; [subst k; reflexivity|].
    apply flat_args_good; [subst k; exact Hf|exact Ha].
  - simpl in Hc. split; [subst k; reflexivity|].
    apply flat_args_good; [subst k; exact Hf|exact Ha].
Qed.

Lemma ParSer_init_good (args : list net) (m : net) :
  ParSer_init k args = Ok m -> Forall (good_arg G k) args ->
  m = node k args /\ flat m = true /\ G m = true.
Proof using G_Par G_Ser k_composite.
  intros Hm Hall.
  assert (HG : Forall (fun a => G a = true) args)
    by (eapply Forall_impl; [exact Hall|]; intros a (_ & H & _); exact H).
  pose proof (flat_node args Hall) as Hflat.
  destruct k_composite as [-> | ->]; simpl in Hm.
  - apply Par_init_inv in Hm. destruct Hm as [-> Hc].
    split; [reflexivity|]. split; [exact Hflat|]. apply G_Par; assumption.
  - apply Ser_init_inv in Hm. destruct Hm as [-> Hc].
    split; [reflexivity|]. split; [exact Hflat|]. apply G_Ser; assumption.
Qed.

Lemma combine_good (a b c : net) :
  good_arg G k a -> good_arg G k b -> _combine k a b = Ok (Some c) ->
  good_arg G k c.
Proof using G_leaf k_composite.
  intros Ha Hb Hc.
  destruct (combine_result_cases k a b c Hc) as [-> | [-> | [l ->]]];
    [exact Ha|exact Hb|apply good_leaf].
Qed.

Lemma scan_inner_good (count : nat) :
  forall (m : nat) (arg1 : net) (args : list (option net)) (new : bool)
         (arg1' : net) (args' : list (option net)) (new' : bool),
    good_arg G k arg1 -> Forall (good_entry G k) args ->
    scan_inner k count m arg1 args new = Ok (arg1', args', new') ->
    good_arg G k arg1' /\ Forall (good_entry G k) args'.
Proof using G_leaf k_composite.
  induction count as [|count IH]; intros m arg1 args new arg1' args' new' H1 Hall;
    simpl.
  - intros [= <- <- <-]. split; assumption.
  - destruct (args !! m) as [[arg2|]|] eqn:Hm.
    + destruct (isinstance arg2 cParSer); [apply IH; assumption|].
      destruct (_combine k arg1 arg2) as [[c|]|e] eqn:Hc;
        cbn [mbind result_mbind result_bind]; [| |discriminate].
      * apply IH.
        -- eapply combine_good; [exact H1| |exact Hc].
           apply (Forall_lookup_1 _ _ _ _ Hall Hm).
        -- apply Forall_insert; [exact Hall|exact I].
      * apply IH; assumption.
    + apply IH; assumption.
    + intros [= <- <- <-]. split; assumption.
Qed.

Lemma scan_outer_good (count : nat) :
  forall (n : nat) (args : list (option net)) (new : bool)
         (args' : list (option net)) (new' : bool),
    Forall (good_entry G k) args ->
    scan_outer k count n args new = Ok (args', new') ->
    Forall (good_entry G k) args'.
Proof using G_leaf k_composite.
  induction count as [|count IH]; intros n args new args' new' Hall; simpl.
  - intros [= <- <-]. assumption.
  - destruct (args !! n) as [[arg1|]|] eqn:Hn.
    + destruct (isinstance arg1 cParSer); [apply IH; assumption|].
      destruct (scan_inner k (length args - S n) (S n) arg1 args new)
        as [[[a1 as1] n1]|e] eqn:Hin;
        cbn [mbind result_mbind result_bind]; [|discriminate].
      apply scan_inner_good in Hin; [|apply (Forall_lookup_1 _ _ _ _ Hall Hn)|exact Hall].
      destruct Hin as [Ha1 Has1]. apply IH.
      apply Forall_insert; [exact Has1|exact Ha1].
    + apply IH; assumption.
    + intros [= <- <-]. assumption.
Qed.

Lemma omap_id_good (args : list (option net)) :
  Forall (good_entry G k) args -> Forall (good_arg G k) (omap id args).
Proof.
  induction 1 as [|[a|] args Ha _ IH]; simpl; [constructor| |exact IH].
  constructor; [exact Ha|exact IH].
Qed.

Lemma map_Some_good (args : list net) :
  Forall (good_arg G k) args -> Forall (good_entry G k) (map Some args).
Proof. induction 1; simpl; constructor; assumption. Qed.

Lemma simplify_scan_good (self : net) (new : bool) (newargs : list net) (m : net) :
  Forall (good_arg G k) newargs ->
  (new = false -> self = node k newargs /\ G self = true) ->
  simplify_scan k self new newargs = Ok m ->
  flat m = true /\ G m = true.
Proof using G_leaf G_Par G_Ser k_composite.
  intros Hall Hself. unfold simplify_scan.
  assert (Hs : forall self',
             (if new then ParSer_init k newargs else Ok self) = Ok self' ->
             self' = node k newargs /\ flat self' = true /\ G self' = true).
  { intros self' H. destruct new.
    - apply ParSer_init_good; assumption.
    - injection H as <-. destruct (Hself eq_refl) as [-> Hg].
      split; [reflexivity|]. split; [apply flat_node; exact Hall|exact Hg]. }
  destruct (if new then ParSer_init k newargs else Ok self) as [self'|e];
    cbn [mbind result_mbind result_bind]; [|discriminate].
  destruct (Hs self' eq_refl) as (-> & Hf & Hg).
  assert (Hargs : args_of (node k newargs) = newargs)
    by (destruct k_composite as [-> | ->]; reflexivity).
  rewrite Hargs.
  destruct (scan_outer k (length (map Some newargs)) 0 (map Some newargs) false)
    as [[args' new']|e] eqn:Hscan;
    cbn [mbind result_mbind result_bind]; [|discriminate].
  apply scan_outer_good in Hscan.
  - destruct new'; [|intros [= <-]; split; assumption].
    apply omap_id_good in Hscan.
    destruct (omap id args') as [|a [|b rest]] eqn:Hom.
    + intros H. apply ParSer_init_good in H; [tauto|constructor].
    + intros [= <-]. inversion Hscan as [|? ? (Hfa & Hga & _) _]; subst.
      split; assumption.
    + intros H. apply ParSer_init_good in H; [tauto|exact Hscan].
  - apply map_Some_good. exact Hall.
Qed.

Lemma flatten_loop_good (deep : bool) (args : list net) :
  Forall (fun a => G a = true ->
                   forall m, simplify deep a = Ok m -> flat m = true /\ G m = true)
         args ->
  Forall (fun a => G a = true) args ->
  forall (new : bool) (acc : list net) (new' : bool) (newargs : list net),
    Forall (good_arg G k) acc ->
    flatten_loop (simplify deep) k args new acc = Ok (new', newargs) ->
    Forall (good_arg G k) newargs /\
    (new' = false -> new = false /\ newargs = acc ++ args).
Proof using G_leaf G_args k_composite.
  intros IH HG. revert IH.
  induction HG as [|a args Ha _ IHargs]; intros IH new acc new' newargs Hacc;
    cbn [flatten_loop].
  - intros [= <- <-]. split; [exact Hacc|]. intros ->. rewrite app_nil_r.
    split; reflexivity.
  - inversion IH as [|? ? IHa IH']; subst.
    destruct (isinstance a cParSer) eqn:Hcomp.
    + destruct (simplify deep a) as [a'|e] eqn:Hsimp;
        cbn [mbind result_mbind result_bind]; [|discriminate].
      destruct (IHa Ha a' eq_refl) as [Hfa' Hga'].
      destruct (bool_decide (class_of a' = k)) eqn:Hk; intros Hloop.
      * apply bool_decide_eq_true in Hk.
        destruct (flat_node_inv a' Hfa' Hga' Hk) as [_ Hsub].
        apply IHargs in Hloop; [|exact IH'|apply Forall_app_2; assumption].
        destruct Hloop as [Hn Hnew]. split; [exact Hn|].
        intros ->. destruct (Hnew eq_refl) as [Hcontra _]. discriminate Hcontra.
      * apply bool_decide_eq_false in Hk.
        apply IHargs in Hloop;
          [|exact IH'
           |apply Forall_app_2; [exact Hacc|constructor; [|constructor]];
            repeat split; assumption].
        destruct Hloop as [Hn Hnew]. split; [exact Hn|].
        intros ->. destruct (Hnew eq_refl) as [Hcontra _]. discriminate Hcontra.
    + destruct (not_ParSer_leaf a Hcomp) as [l ->]. intros Hloop.
      apply IHargs in Hloop;
        [|exact IH'|apply Forall_app_2; [exact Hacc|constructor; [|constructor]];
                    apply good_leaf].
      destruct Hloop as [Hn Hnew]. split; [exact Hn|].
      intros Hf. destruct (Hnew Hf) as [-> ->]. split; [reflexivity|].
      rewrite <- app_assoc. reflexivity.
Qed.

End OneClass.

Lemma simplify_good (deep : bool) (n : net) :
  G n = true -> forall m, simplify deep n = Ok m -> flat m = true /\ G m = true.
Proof using G_leaf G_args G_Par G_Ser.
  induction n as [l|args IH|args IH] using oneport_tree_ind; intros Hg m.
  - simpl. intros [= <-]. split; [reflexivity|exact Hg].
  - rewrite simplify_Par_unfold.
    destruct (flatten_loop (simplify deep) cPar args false []) as [[new newargs]|e]
      eqn:Hfl; cbn [mbind result_mbind result_bind]; [|discriminate].
    apply (flatten_loop_good cPar (or_introl eq_refl) deep args IH (G_args _ Hg))
      in Hfl; [|constructor].
    destruct Hfl as [Hall Hnew].
    apply (simplify_scan_good cPar (or_introl eq_refl)); [exact Hall|].
    intros ->. destruct (Hnew eq_refl) as [_ ->]. split; [reflexivity|exact Hg].
  - rewrite simplify_Ser_unfold.
    destruct (flatten_loop (simplify deep) cSer args false []) as [[new newargs]|e]
      eqn:Hfl; cbn [mbind result_mbind result_bind]; [|discriminate].
    apply (flatten_loop_good cSer (or_intror eq_refl) deep args IH (G_args _ Hg))
      in Hfl; [|constructor].
    destruct Hfl as [Hall Hnew].
    apply (simplify_scan_good cSer (or_intror eq_refl)); [exact Hall|].
    intros ->. destruct (Hnew eq_refl) as [_ ->]. split; [reflexivity|exact Hg].
Qed.

End SimplifyInvariant.

(** X8. Whatever [simplify] returns is flat: no [Ser] in it has a [Ser]
    among its arguments and no [Par] has a [Par] among its arguments, at
    any depth. *)
Theorem simplify_flat (deep : bool) (n m : net) :
  simplify deep n = Ok m -> flat m = true.
Proof.
  intros H.
  assert (HA : forall n' : net, true = true ->
                 Forall (fun _ : net => true = true) (args_of n')).
  { intros n' _. induction (args_of n'); constructor; [reflexivity|assumption]. }
  exact (proj1 (simplify_good (fun _ => true) (fun _ => eq_refl) HA
                  (fun _ _ _ => eq_refl) (fun _ _ _ => eq_refl)
                  deep n eq_refl m H)).
Qed.

Lemma well_constructed_args (n : net) :
  well_constructed n = true ->
  Forall (fun a => well_constructed a = true) (args_of n).
Proof.
  destruct n as [l|args|args]; simpl; [constructor| |];
    intros H; apply andb_true_iff in H; destruct H as [_ H];
    rewrite forallb_forall in H; apply Forall_forall; intros a Ha;
    apply H, list_elem_of_In, Ha.
Qed.

Lemma well_constructed_node (c : nat) (args : list net) :
  (c <=? 1) = true -> Forall (fun a => well_constructed a = true) args ->
  (c <=? 1) && forallb well_constructed args = true.
Proof.
  intros -> H. simpl. apply forallb_forall. intros a Ha.
  rewrite Forall_forall in H. apply H, list_elem_of_In, Ha.
Qed.

(** X9. [simplify] keeps networks legal: when every composite of the
    network is one that its constructor accepts, so is every composite
    of what [simplify] returns. *)
Theorem simplify_well_constructed (deep : bool) (n m : net) :
  well_constructed n = true -> simplify deep n = Ok m ->
  well_constructed m = true.
Proof.
  intros Hn H.
  refine (proj2 (simplify_good well_constructed (fun _ => eq_refl)
                   well_constructed_args _ _ deep n Hn m H)).
  - intros args Hc Ha. simpl. apply well_constructed_node; [|exact Ha].
    apply Nat.leb_le. exact Hc.
  - intros args Hc Ha. simpl. apply well_constructed_node; [|exact Ha].
    apply Nat.leb_le. exact Hc.
Qed.

(** ** [s_model] *)

(** X10. The s-domain model of a leaf exists exactly when one of the
    four quantities of the leaf is set; the only error that [s_model]
    raises on a leaf is its "Internal error", when none is. *)
Theorem s_model_leaf_defined_iff (l : leaf sym) :
  is_ok (s_model (Leaf l)) = resolvable l /\
  (resolvable l = false ->
   s_model (Leaf l) = Err (ValueError "Internal error"%string)).
Proof.
  unfold resolvable. simpl. unfold OnePort_s_model, mixin_Z, OnePort_admittance,
    OnePort_impedance.
  destruct (_Z l), (_Y l), (_Voc l), (_Isc l);
    cbn [mbind result_mbind result_bind];
    repeat match goal with
           | |- context [if q_eq0 ?q then _ else _] => destruct (q_eq0 q)
           end;
    split; try reflexivity; intros H; discriminate H.
Qed.

Lemma OnePort_s_model_cases (l : leaf sym) (m : net) :
  OnePort_s_model l = Ok m ->
  (exists x, m = Leaf (Z_init x)) \/ (exists x, m = Leaf (V_init x)) \/
  (exists x y, m = Ser [Leaf (V_init x); Leaf (Z_init y)]) \/
  (exists x, m = Leaf (Y_init x)) \/ (exists x, m = Leaf (I_init x)) \/
  (exists x y, m = Par [Leaf (I_init x); Leaf (Y_init y)]).
Proof.
  unfold OnePort_s_model, mixin_Z, OnePort_admittance, OnePort_impedance.
  destruct (_Z l), (_Y l), (_Voc l), (_Isc l);
    cbn [mbind result_mbind result_bind];
    repeat match goal with
           | |- context [if q_eq0 ?q then _ else _] => destruct (q_eq0 q)
           end;
    intros H; try discriminate H; injection H as <-; eauto 10.
Qed.

Lemma forallb_Forall_true {A : Type} (f : A -> bool) (l : list A) :
  Forall (fun a => f a = true) l -> forallb f l = true.
Proof. induction 1 as [|a l Ha _ IH]; simpl; [reflexivity|]. rewrite Ha. exact IH. Qed.

Lemma rebuilt_args (P : net -> Prop) (f : net -> result net)
    (args newargs : list net) :
  Forall (fun a => forall b, f a = Ok b -> P b) args ->
  sequence (map f args) = Ok newargs -> Forall P newargs.
Proof.
  intros IH Hseq. apply sequence_map_ok in Hseq.
  induction Hseq as [|a b args newargs Hab _ IHseq]; [constructor|].
  inversion IH as [|? ? Ha IH']; subst. constructor; [apply Ha, Hab|].
  apply IHseq, IH'.
Qed.

(** X11. When [s_model] returns a network, its leaves are of the classes
    [V], [I], [Y] and [Z] only, and every composite in it is one that
    its constructor accepts. *)
Theorem s_model_result (n m : net) :
  s_model n = Ok m ->
  all_leaves is_s_leaf m = true /\ well_constructed m = true.
Proof.
  revert m. induction n as [l|args IH|args IH] using oneport_tree_ind; intros m.
  - simpl. intros H.
    destruct (OnePort_s_model_cases l m H)
      as [[x ->]|[[x ->]|[(x & y & ->)|[[x ->]|[[x ->]|(x & y & ->)]]]]];
      split; reflexivity.
  - cbn [s_model].
    destruct (sequence (map s_model args)) as [newargs|e] eqn:Hseq;
      cbn [mbind result_mbind result_bind]; [|discriminate].
    intros Hm. apply Par_init_inv in Hm. destruct Hm as [-> Hc].
    apply (rebuilt_args _ _ _ _ IH) in Hseq. simpl.
    split; [|apply andb_true_iff; split; [apply Nat.leb_le; exact Hc|]];
      apply forallb_Forall_true; (eapply Forall_impl; [exact Hseq|]);
      intros b [H1 H2]; assumption.
  - cbn [s_model].
    destruct (sequence (map s_model args)) as [newargs|e] eqn:Hseq;
      cbn [mbind result_mbind result_bind]; [|discriminate].
    intros Hm. apply Ser_init_inv in Hm. destruct Hm as [-> Hc].
    apply (rebuilt_args _ _ _ _ IH) in Hseq. simpl.
    split; [|apply andb_true_iff; split; [apply Nat.leb_le; exact Hc|]];
      apply forallb_Forall_true; (eapply Forall_impl; [exact Hseq|]);
      intros b [H1 H2]; assumption.
Qed.

(** ** Chains of leaves of one kind *)

Lemma insert_middle {A : Type} (l1 l2 : list A) (x y : A) :
  <[length l1 := x]> (l1 ++ y :: l2) = l1 ++ x :: l2.
Proof. induction l1 as [|a l1 IH]; simpl; [reflexivity|]. f_equal. exact IH. Qed.

Lemma lookup_middle {A : Type} (l1 l2 : list A) (x : A) :
  (l1 ++ x :: l2) !! length l1 = Some x.
Proof. induction l1 as [|a l1 IH]; simpl; [reflexivity|exact IH]. Qed.

Lemma flatten_loop_leaves (simp : net -> result net) (k : cls) (ls : list (leaf sym)) :
  forall (new : bool) (acc : list net),
    flatten_loop simp k (map Leaf ls) new acc = Ok (new, acc ++ map Leaf ls).
Proof.
  induction ls as [|l ls IH]; intros new acc; cbn [map flatten_loop].
  - rewrite app_nil_r. reflexivity.
  - rewrite leaf_not_ParSer, IH, <- app_assoc. reflexivity.
Qed.

Lemma scan_outer_consumed (k : cls) (c : nat) :
  forall (pre : list (option net)) (new : bool),
    scan_outer k c (length pre) (pre ++ replicate c None) new
    = Ok (pre ++ replicate c None, new).
Proof.
  induction c as [|c IH]; intros pre new; [reflexivity|].
  cbn [scan_outer replicate]. rewrite lookup_middle.
  specialize (IH (pre ++ [None]) new).
  rewrite length_app, Nat.add_1_r, <- app_assoc in IH. exact IH.
Qed.

Lemma scan_outer_step_leaf (k : cls) (c n : nat) (args : list (option net))
    (new : bool) (l : leaf sym) :
  args !! n = Some (Some (Leaf l)) ->
  scan_outer k (S c) n args new
  = ('(arg1, args, new) ← scan_inner k (length args - S n) (S n) (Leaf l) args new;
     scan_outer k c (S n) (<[n := Some arg1]> args) new).
Proof. intros H. cbn [scan_outer]. rewrite H, leaf_not_ParSer. reflexivity. Qed.

Section Family.
(** A family [mk] of leaves that [_combine] merges by [op] in a
    composite of class [k]. *)
Variable k : cls.
Variable mk : sym -> leaf sym.
Variable op : sym -> sym -> sym.
Hypothesis merge :
  forall a b, _combine k (Leaf (mk a)) (Leaf (mk b)) = Ok (Some (Leaf (mk (op a b)))).

Lemma scan_inner_family (bs : list sym) :
  forall (pre : list (option net)) (a : sym) (new : bool),
    scan_inner k (length bs) (length pre) (Leaf (mk a))
      (pre ++ map (fun b => Some (Leaf (mk b))) bs) new
    = Ok (Leaf (mk (fold_left op bs a)), pre ++ replicate (length bs) None,
          match bs with [] => new | _ => true end).
Proof using merge.
  induction bs as [|b bs IH]; intros pre a new; [reflexivity|].
  cbn [length map scan_inner]. rewrite lookup_middle, leaf_not_ParSer, merge.
  cbn [mbind result_mbind result_bind]. rewrite insert_middle.
  specialize (IH (pre ++ [None]) (op a b) true).
  rewrite length_app, Nat.add_1_r, <- !app_assoc in IH. cbn [app] in IH.
  rewrite IH. cbn [fold_left replicate]. destruct bs; reflexivity.
Qed.

Lemma simplify_scan_family (self : net) (r0 r1 : sym) (rs : list sym) :
  args_of self = map (fun r => Leaf (mk r)) (r0 :: r1 :: rs) ->
  simplify_scan k self false (args_of self)
  = Ok (Leaf (mk (fold_left op (r1 :: rs) r0))).
Proof using merge.
  intros Hargs. unfold simplify_scan. cbn [mbind result_mbind result_bind].
  rewrite Hargs, map_map.
  pose proof (scan_inner_family (r1 :: rs) [Some (Leaf (mk r0))] r0 false) as Hin.
  cbn [length map app] in Hin.
  pose proof (scan_outer_consumed k (S (length rs))
                [Some (Leaf (mk (fold_left op (r1 :: rs) r0)))] true) as Hout.
  cbn [length app] in Hout.
  cbn [map length].
  rewrite (scan_outer_step_leaf k _ 0 _ false (mk r0)) by reflexivity.
  cbn [length Nat.sub]. rewrite length_map, Hin.
  cbn [mbind result_mbind result_bind insert list_insert]. rewrite Hout.
  cbn [mbind result_mbind result_bind omap list_omap id replicate].
  assert (Hnone : forall c, omap id (replicate c (@None net)) = []).
  { induction c as [|c IHc]; [reflexivity|exact IHc]. }
  rewrite Hnone. reflexivity.
Qed.
Lemma simplify_family (deep : bool) (r0 r1 : sym) (rs : list sym) :
  let args := map (fun r => Leaf (mk r)) (r0 :: r1 :: rs) in
  (k = cSer -> simplify deep (Ser args) = Ok (Leaf (mk (fold_left op (r1 :: rs) r0)))) /\
  (k = cPar -> simplify deep (Par args) = Ok (Leaf (mk (fold_left op (r1 :: rs) r0)))).
Proof using merge.
  intros args.
  assert (Hfl : forall c, flatten_loop (simplify deep) c args false [] = Ok (false, args)).
  { intros c. subst args. rewrite <- (map_map mk Leaf).
    rewrite flatten_loop_leaves. reflexivity. }
  split; intros Hk.
  - rewrite simplify_Ser_unfold, Hfl. cbn [mbind result_mbind result_bind].
    rewrite <- Hk. apply (simplify_scan_family (Ser args)). reflexivity.
  - rewrite simplify_Par_unfold, Hfl. cbn [mbind result_mbind result_bind].
    rewrite <- Hk. apply (simplify_scan_family (Par args)). reflexivity.
Qed.
End Family.

(** X12. A chain of two or more leaves of one kind collapses to a
    single leaf, whatever its length: resistors in series to the
    resistor of the summed resistance, resistors in parallel to that of
    the harmonic combination, conductances dually, DC voltage sources in
    series and DC current sources in parallel to the source of the
    summed value.  The values are combined from left to right, each
    intermediate value passing through [cExpr]. *)
Theorem chains_collapse (deep : bool) (x0 x1 : sym) (xs : list sym) :
  let chain (mk : sym -> leaf sym) := map (fun x => Leaf (mk x)) (x0 :: x1 :: xs) in
  let total (op : sym -> sym -> sym) := fold_left op (x1 :: xs) x0 in
  simplify deep (Ser (chain leaf_R)) = Ok (Leaf (leaf_R (total stored_sum))) /\
  simplify deep (Par (chain leaf_R)) = Ok (Leaf (leaf_R (total stored_harmonic))) /\
  simplify deep (Ser (chain leaf_G)) = Ok (Leaf (leaf_G (total stored_harmonic))) /\
  simplify deep (Par (chain leaf_G)) = Ok (Leaf (leaf_G (total stored_sum))) /\
  simplify deep (Ser (chain leaf_Vdc)) = Ok (Leaf (leaf_Vdc (total stored_sum))) /\
  simplify deep (Par (chain leaf_Idc)) = Ok (Leaf (leaf_Idc (total stored_sum))) /\
  (forall x, R_init x = leaf_R (cExpr x) /\ G_init x = leaf_G (cExpr x) /\
             Vdc_init x = leaf_Vdc (cExpr x) /\ Idc_init x = leaf_Idc (cExpr x)).
Proof.
  intros chain total. subst chain total. cbv beta.
  split; [apply (simplify_family cSer leaf_R stored_sum); reflexivity|].
  split; [apply (simplify_family cPar leaf_R stored_harmonic); reflexivity|].
  split; [apply (simplify_family cSer leaf_G stored_harmonic); reflexivity|].
  split; [apply (simplify_family cPar leaf_G stored_sum); reflexivity|].
  split; [apply (simplify_family cSer leaf_Vdc stored_sum); reflexivity|].
  split; [apply (simplify_family cPar leaf_Idc stored_sum); reflexivity|].
  intros x. repeat split.
Qed.

(** ** Capacitors and inductors *)

(** X13. [simplify] on two capacitors [C(C1, v1)] and [C(C2, v2)] in
    parallel: when the two initial voltages compare equal (an
    unspecified one counting as 0) and both or neither is specified, the
    result is the single capacitor [C(C1 + C2, v0)], [v0] being the
    first initial voltage if it was specified; when the initial voltages
    differ, or when only one of the capacitors specifies one, an error
    is raised. *)
Theorem parallel_capacitors_combine (deep : bool) (C1 C2 : sym) (v1 v2 : option sym) :
  let a := Leaf (C_init C1 v1) in
  let b := Leaf (C_init C2 v2) in
  let c1 := cExpr (default (snum 0) v1) in
  let c2 := cExpr (default (snum 0) v2) in
  let sum :=
    Leaf (C_init (sadd (cExpr C1) (cExpr C2))
                 (match v1 with Some _ => Some c1 | None => None end)) in
  (seqb c1 c2 = true -> (v1 = None <-> v2 = None) ->
     simplify deep (Par [a; b]) = Ok sum) /\
  (seqb c1 c2 = false ->
     simplify deep (Par [a; b]) = Err (ValueError C_conflict_msg)) /\
  ((v1 = None /\ v2 <> None) \/ (v1 <> None /\ v2 = None) ->
     simplify deep (Par [a; b]) = Err (ValueError C_conflict_msg)).
Proof.
  intros a b c1 c2 sum. subst a b sum. rewrite simplify_Par_pair.
  change (_combine cPar (Leaf (C_init C1 v1)) (Leaf (C_init C2 v2)))
    with (if sneb c1 c2 || negb (eqb (bool_decide (v1 <> None)) (bool_decide (v2 <> None)))
          then @Err (option net) (ValueError C_conflict_msg)
          else Ok (Some (Leaf (C_init (sadd (cExpr C1) (cExpr C2))
                                      (if bool_decide (v1 <> None) then Some c1
                                       else None))))).
  unfold sneb. split; [|split].
  - intros Heq Hiff. rewrite Heq.
    destruct v1, v2; simpl; try reflexivity.
    + destruct Hiff as [_ H]. discriminate H. reflexivity.
    + destruct Hiff as [H _]. discriminate H. reflexivity.
  - intros Hne. rewrite Hne. reflexivity.
  - intros [[H1 H2]|[H1 H2]]; destruct v1, v2; try congruence;
      rewrite orb_true_r; reflexivity.
Qed.

(** X14. The dual pairs never raise: two capacitors in series always
    combine to [C(C1*C2/(C1 + C2), v0)] and two inductors in parallel to
    [L(L1*L2/(L1 + L2), i0)], where the initial condition is the sum of
    the two (an unspecified one counting as 0) when at least one of them
    is specified, and is unspecified otherwise. *)
Theorem series_capacitors_parallel_inductors (deep : bool) (X1 X2 : sym)
    (ic1 ic2 : option sym) :
  let x1 := cExpr X1 in
  let x2 := cExpr X2 in
  let c1 := cExpr (default (snum 0) ic1) in
  let c2 := cExpr (default (snum 0) ic2) in
  let ic :=
    match ic1, ic2 with
    | None, None => None
    | _, _ => Some (sadd c1 c2)
    end in
  simplify deep (Ser [Leaf (C_init X1 ic1); Leaf (C_init X2 ic2)])
  = Ok (Leaf (C_init (sdiv (smul x1 x2) (sadd x1 x2)) ic)) /\
  simplify deep (Par [Leaf (L_init X1 ic1); Leaf (L_init X2 ic2)])
  = Ok (Leaf (L_init (sdiv (smul x1 x2) (sadd x1 x2)) ic)).
Proof.
  intros x1 x2 c1 c2 ic. subst ic.
  rewrite simplify_Ser_pair, simplify_Par_pair.
  destruct ic1, ic2; split; reflexivity.
Qed.

(** ** [s_model] of voltage sources in parallel *)

Lemma s_model_ideal_voltage_source (l : leaf sym) (v : Q) :
  seqb (snum 0) (snum 0) = true ->
  _Voc l = Some v -> _Z l = None -> _Y l = None -> q_eq0 v = false ->
  s_model (Leaf l) = Ok (Leaf (V_init (qval (q_laplace v)))).
Proof.
  intros H0 Hv Hz Hy Hnz. simpl.
  unfold OnePort_s_model, mixin_Z, OnePort_impedance.
  rewrite Hv, Hz, Hy, Hnz. cbn [mbind result_mbind result_bind].
  unfold q_eq0, Impedance. simpl. rewrite H0. reflexivity.
Qed.

(** X15. In an engine where 0 compares equal to 0, the s-domain model of
    a leaf that stores a non-zero [_Voc] and neither [_Z] nor [_Y] (an
    ideal voltage source of any class) is the [V] of the Laplace
    transform of that voltage; hence [s_model] of two such leaves in
    parallel raises the error of two voltage sources in parallel, also
    for the classes that [Par] itself accepts side by side. *)
Theorem s_model_parallel_voltage_sources (l1 l2 : leaf sym) (v1 v2 : Q) :
  seqb (snum 0) (snum 0) = true ->
  _Voc l1 = Some v1 -> _Z l1 = None -> _Y l1 = None -> q_eq0 v1 = false ->
  _Voc l2 = Some v2 -> _Z l2 = None -> _Y l2 = None -> q_eq0 v2 = false ->
  s_model (Leaf l1) = Ok (Leaf (V_init (qval (q_laplace v1)))) /\
  s_model (Leaf l2) = Ok (Leaf (V_init (qval (q_laplace v2)))) /\
  s_model (Par [Leaf l1; Leaf l2]) = Err (ValueError Par_msg) /\
  (class_of (Leaf l1) <> cV ->
   Par_init [Leaf l1; Leaf l2] = Ok (Par [Leaf l1; Leaf l2])).
Proof.
  intros H0 Hv1 Hz1 Hy1 Hn1 Hv2 Hz2 Hy2 Hn2.
  pose proof (s_model_ideal_voltage_source l1 v1 H0 Hv1 Hz1 Hy1 Hn1) as S1.
  pose proof (s_model_ideal_voltage_source l2 v2 H0 Hv2 Hz2 Hy2 Hn2) as S2.
  split; [exact S1|]. split; [exact S2|]. split.
  - cbn [s_model map sequence]. cbn [s_model] in S1, S2. rewrite S1, S2.
    reflexivity.
  - intros Hc. apply Par_init_value. simpl.
    rewrite (isinstance_V_exact (Leaf l1)), bool_decide_eq_false_2 by exact Hc.
    destruct (isinstance (Leaf l2) cV); simpl; lia.
Qed.

(** ** [LoadCircuit] *)

(** X16. A load circuit is built unless the source and the load are both
    of class [V] (the parallel network [vnet] cannot be built) or both
    of class [I] (the series network [inet] cannot); when it is built,
    its [V] is the open-circuit voltage of [Par(source, load)] and its
    [I] the short-circuit current of [Ser(source, load)], both asked of
    the network solver. *)
Theorem LoadCircuit_construction (source load : net) :
  (class_of source = cV -> class_of load = cV ->
     OnePort_load source load = Err (ValueError Par_msg)) /\
  (class_of source = cI -> class_of load = cI ->
     OnePort_load source load = Err (ValueError Ser_msg)) /\
  (~ (class_of source = cV /\ class_of load = cV) ->
   ~ (class_of source = cI /\ class_of load = cI) ->
     exists lc, OnePort_load source load = Ok lc /\
                vnet lc = Par [source; load] /\ inet lc = Ser [source; load] /\
                LoadCircuit_V lc = cct_Voc (Par [source; load]) /\
                LoadCircuit_I lc = cct_Isc (Ser [source; load])).
Proof.
  unfold OnePort_load, LoadCircuit_init. split; [|split].
  - intros Hs Hl.
    pose proof (Par_init_two_V [] [] [] source load Hs Hl) as HE.
    cbn [app] in HE. rewrite HE. reflexivity.
  - intros Hs Hl.
    assert (HP : Par_init [source; load] = Ok (Par [source; load])).
    { apply Par_init_value. simpl. rewrite !isinstance_V_exact.
      rewrite (bool_decide_eq_false_2 (class_of source = cV)) by congruence.
      destruct (bool_decide (class_of load = cV)); simpl; lia. }
    rewrite HP. cbn [mbind result_mbind result_bind].
    pose proof (Ser_init_two_I [] [] [] source load Hs Hl) as HE.
    cbn [app] in HE. rewrite HE. reflexivity.
  - intros HV HI.
    assert (HP : Par_init [source; load] = Ok (Par [source; load])).
    { apply Par_init_value. simpl. rewrite !isinstance_V_exact.
      destruct (bool_decide (class_of source = cV)) eqn:H1,
               (bool_decide (class_of load = cV)) eqn:H2; simpl; try lia.
      apply bool_decide_eq_true in H1, H2. tauto. }
    assert (HS : Ser_init [source; load] = Ok (Ser [source; load])).
    { apply Ser_init_value. simpl. rewrite !isinstance_I_exact.
      destruct (bool_decide (class_of source = cI)) eqn:H1,
               (bool_decide (class_of load = cI)) eqn:H2; simpl; try lia.
      apply bool_decide_eq_true in H1, H2. tauto. }
    rewrite HP, HS. cbn [mbind result_mbind result_bind].
    eexists. repeat split.
Qed.

(** ** Printing *)

Lemma append_assoc (s1 s2 s3 : string) :
  ((s1 ++ s2) ++ s3 = s1 ++ (s2 ++ s3))%string.
Proof. induction s1 as [|c s1 IH]; simpl; [reflexivity|]. rewrite IH. reflexivity. Qed.

Lemma append_nil_r (s : string) : (s ++ "" = s)%string.
Proof. induction s as [|c s IH]; simpl; [reflexivity|]. rewrite IH. reflexivity. Qed.

Section TextFacts.
Variable text : net -> string.
Variable k : cls.

Lemma text_loop_acc (args : list net) (str : string) :
  text_loop text k str args = (str ++ text_loop text k "" args)%string.
Proof.
  revert str. induction args as [|a rest IH]; intros str; cbn [text_loop].
  - rewrite append_nil_r. reflexivity.
  - cbv zeta. rewrite IH. symmetry. rewrite IH. symmetry.
    destruct rest; cbn [String.append]; rewrite ?append_assoc; reflexivity.
Qed.

(** The text of [l1 ++ l2] when [l1] is not empty: the text of [l1],
    the operator if [l2] is not empty, then the text of [l2]. *)
Lemma text_loop_app (l1 l2 : list net) :
  l1 <> [] ->
  text_loop text k "" (l1 ++ l2)
  = (text_loop text k "" l1
     ++ match l2 with [] => "" | _ => " " ++ operator k ++ " " end
     ++ text_loop text k "" l2)%string.
Proof.
  induction l1 as [|a l1 IH]; [congruence|]. intros _.
  cbn [app text_loop]. cbv zeta. cbn [String.append].
  destruct l1 as [|b l1].
  - cbn [app]. destruct l2 as [|c l2].
    + cbn [text_loop String.append]. rewrite !append_nil_r. reflexivity.
    + rewrite text_loop_acc. rewrite !append_assoc. reflexivity.
  - cbn [app] in *. rewrite text_loop_acc, IH by discriminate.
    symmetry. rewrite text_loop_acc. rewrite !append_assoc. reflexivity.
Qed.
End TextFacts.

(** X17. Printing does not show the nesting of a composite in a
    composite of its own class: with [inner] not empty, [Ser] of
    [pre ++ Ser inner :: post] prints as [Ser] of [pre ++ inner ++ post]
    does, and likewise for [Par]; this holds of [__str__], [pretty] and
    [latex], whatever the leaves print. *)
Theorem text_ignores_nesting (leaf_text : leaf sym -> string)
    (pre inner post : list net) :
  inner <> [] ->
  ParSer_text leaf_text (Ser (pre ++ Ser inner :: post))
  = ParSer_text leaf_text (Ser (pre ++ inner ++ post)) /\
  ParSer_text leaf_text (Par (pre ++ Par inner :: post))
  = ParSer_text leaf_text (Par (pre ++ inner ++ post)).
Proof.
  intros Hin. cbn [ParSer_text]. split.
  - induction pre as [|a pre IH].
    + cbn [app]. rewrite (text_loop_app _ _ inner post Hin).
      cbn [text_loop]. cbv zeta. cbn [String.append ParSer_text].
      destruct post as [|c post].
      * rewrite !append_nil_r. reflexivity.
      * rewrite text_loop_acc. rewrite !append_assoc. reflexivity.
    + cbn [app text_loop]. cbv zeta.
      rewrite text_loop_acc. symmetry. rewrite text_loop_acc. symmetry.
      rewrite IH.
      destruct pre; cbn [app]; [destruct inner; [congruence|]|]; reflexivity.
  - induction pre as [|a pre IH].
    + cbn [app]. rewrite (text_loop_app _ _ inner post Hin).
      cbn [text_loop]. cbv zeta. cbn [String.append ParSer_text].
      destruct post as [|c post].
      * rewrite !append_nil_r. reflexivity.
      * rewrite text_loop_acc. rewrite !append_assoc. reflexivity.
    + cbn [app text_loop]. cbv zeta.
      rewrite text_loop_acc. symmetry. rewrite text_loop_acc. symmetry.
      rewrite IH.
      destruct pre; cbn [app]; [destruct inner; [congruence|]|]; reflexivity.
Qed.

(** ** [simplify] and the impedance *)

Lemma fold_stored_sum (l : list sym) (a : sym) :
  (forall a b, cExpr (sadd a b) = sadd a b) ->
  fold_left stored_sum l a = fold_left sadd l a.
Proof.
  intros Hc. revert a. induction l as [|b l IH]; intros a; [reflexivity|].
  cbn [fold_left]. unfold stored_sum at 2. rewrite Hc. apply IH.
Qed.

Lemma sequence_impedance_R (rs : list sym) :
  sequence (map impedance (map (fun r => Leaf (leaf_R r)) rs))
  = Ok (map Impedance rs).
Proof.
  induction rs as [|r rs IH]; [reflexivity|].
  cbn [map sequence]. cbn [impedance OnePort_impedance leaf_R _Z].
  rewrite IH. reflexivity.
Qed.

(** X18. [simplify] keeps the impedance of a series chain of two or
    more resistors, on an engine where 0 is a left unit of the sum and
    [cExpr] leaves a sum as it is: the chain and the single resistor
    that [simplify] returns for it have the same impedance, the sum of
    the stored resistances taken from left to right. *)
Theorem simplify_keeps_series_resistance (deep : bool) (x0 x1 : sym) (xs : list sym) :
  (forall x, sadd (snum 0) x = x) ->
  (forall a b, cExpr (sadd a b) = sadd a b) ->
  let n := Ser (map (fun x => Leaf (R_init x)) (x0 :: x1 :: xs)) in
  let z := Impedance (fold_left sadd (map cExpr (x1 :: xs)) (cExpr x0)) in
  exists m, simplify deep n = Ok m /\ impedance n = Ok z /\ impedance m = Ok z.
Proof.
  intros H0 Hc n z. subst n z.
  assert (Hmap : map (fun x => Leaf (R_init x)) (x0 :: x1 :: xs)
                 = map (fun r => Leaf (leaf_R r)) (map cExpr (x0 :: x1 :: xs))).
  { rewrite map_map. reflexivity. }
  rewrite Hmap.
  exists (Leaf (leaf_R (fold_left stored_sum (map cExpr (x1 :: xs)) (cExpr x0)))).
  split; [|split].
  - cbn [map].
    apply (proj1 (simplify_family cSer leaf_R stored_sum (fun _ _ => eq_refl) deep
                    (cExpr x0) (cExpr x1) (map cExpr xs)) eq_refl).
  - cbn [impedance]. unfold Ser_impedance.
    rewrite (sum_loop_sequence _ _ (sequence_impedance_R _)).
    rewrite (quantity_sum_one_kind TImpedance)
      by (generalize (map cExpr (x0 :: x1 :: xs)); intros l;
          induction l; constructor; [reflexivity|assumption]).
    cbn [mbind result_mbind result_bind]. rewrite map_map. cbn [qval Impedance].
    rewrite map_id. cbn [map fold_left]. rewrite H0. reflexivity.
  - cbn [impedance OnePort_impedance leaf_R _Z].
    rewrite fold_stored_sum by exact Hc. reflexivity.
Qed.

End MoreProperties.

(** * The properties on the rational engine

    Each property above with a premise is run here on an example of the
    documentation or of the tests, and each claim that the code does not
    satisfy is refuted on an input. *)

#[local] Existing Instance Rat.engine.


(** The laws of addition that C10 asks of the engine hold of [Rat.add]. *)
Lemma Rat_add_0_l (x : sym) : sadd (snum 0) x = x.
Proof. destruct x as [q|]; simpl; [|reflexivity]. f_equal. apply Qcplus_0_l. Qed.

Lemma Rat_add_assoc (x y w : sym) :
  sadd (sadd x y) w = sadd x (sadd y w).
Proof.
  destruct x, y, w; simpl; try reflexivity. f_equal. symmetry. apply Qcplus_assoc.
Qed.

(** C1 on [I(5)], where only [_Isc] is set and the impedance is
    [1/Admittance(0)], and on a bare [OnePort()], where nothing is set
    and the read raises. *)
Lemma impedance_resolution_order_witness :
  _Z Rat.I5 = None /\ _Y Rat.I5 = None /\ _Voc Rat.I5 = None /\
  _Isc Rat.I5 = Some (Current (snum 5)) /\
  impedance (Leaf Rat.I5) = Ok (Impedance (qval (q_recip (Admittance (snum 0))))) /\
  exists msg, impedance (Leaf (blank bOnePort)) = Err (ValueError msg).
Proof.
  do 4 (split; [reflexivity|]).
  split.
  - destruct (impedance_resolution_order Rat.I5) as (_ & _ & _ & H & _).
    exact (H (Current (snum 5)) eq_refl eq_refl eq_refl eq_refl).
  - destruct (impedance_resolution_order (blank bOnePort)) as (_ & _ & _ & _ & H).
    exact (H eq_refl eq_refl eq_refl eq_refl).
Defined.

(** C7 on [R(5)]: only [_Z] is set, [Voc] is [Voltage(0)] and [Isc] is
    the quotient of [Voltage(0)] by [Impedance(5)]. *)
Lemma Voc_Isc_resolution_order_witness :
  _Voc Rat.R5 = None /\ _Isc Rat.R5 = None /\ _Z Rat.R5 = Some (Impedance (snum 5)) /\
  Voc (Leaf Rat.R5) = Ok (Voltage (snum 0)) /\
  Isc (Leaf Rat.R5) = q_div (Voltage (snum 0)) (Impedance (snum 5)).
Proof.
  do 3 (split; [reflexivity|]).
  destruct (Voc_Isc_resolution_order Rat.R5) as (_ & _ & H & _ & _ & _ & H' & _).
  split; [exact (H (Impedance (snum 5)) eq_refl eq_refl eq_refl)|].
  exact (H' (Voltage (snum 0)) (Impedance (snum 5)) eq_refl eq_refl eq_refl).
Defined.

(** On the rational engine, as in lcapy, a voltage is not divided by a
    quantity of the kind [Admittance], nor a current by an impedance:
    [Voc] and [impedance] of [Y(2)], [G(5)], [O()] and [P()] are read,
    and [Isc] raises. *)
Example Isc_of_admittance_leaves :
  Forall (fun l : leaf sym =>
            is_ok (Voc (Leaf l)) = true /\ is_ok (impedance (Leaf l)) = true /\
            exists msg, Isc (Leaf l) = Err (TypeError msg))
         [Y_init (snum 2); G_init (snum 5); O_init; P_init].
Proof. repeat constructor; eexists; reflexivity. Qed.

(** [R(5) + G(5)] has no impedance, [R(5) + R(5)] has. *)
Example test_R_series_G :
  (exists msg, impedance (Ser [Leaf Rat.R5; Leaf (G_init (snum 5))])
               = Err (ValueError msg)) /\
  impedance (Ser [Leaf Rat.R5; Leaf Rat.R5])
  = Ok (Impedance (sadd (sadd (snum 0) (snum 5)) (snum 5))).
Proof. split; [eexists|]; reflexivity. Qed.

(** C8, amended, on the test [Vdc(10) + R(5)] and on [I(5)]. *)
Lemma V_I_aliases_witness :
  isinstance (Ser [Leaf Rat.Vdc10; Leaf Rat.R5]) cCurrentSource = false /\
  get_I (Ser [Leaf Rat.Vdc10; Leaf Rat.R5]) = Ok (Current (snum 0)) /\
  isinstance (Leaf Rat.I5) cCurrentSource = true /\
  get_I (Leaf Rat.I5) = Isc (Leaf Rat.I5).
Proof.
  split; [reflexivity|]. split.
  - destruct (V_I_aliases (Ser [Leaf Rat.Vdc10; Leaf Rat.R5])) as (_ & _ & H).
    exact (H eq_refl).
  - split; [reflexivity|].
    destruct (V_I_aliases (Leaf Rat.I5)) as (_ & H & _). exact (H eq_refl).
Defined.

(** C8 refuted: [.I] of [L(10, 5)] is zero and its [.Isc] is not; [.I]
    of the series [Vdc(10) + R(5)] is zero. *)
Lemma I_is_not_Isc :
  get_I (Leaf Rat.L10_ic5) = Ok (Current (snum 0)) /\
  (exists q, Isc (Leaf Rat.L10_ic5) = Ok q /\ q_eq0 q = false) /\
  get_I (Ser [Leaf Rat.Vdc10; Leaf Rat.R5]) = Ok (Current (snum 0)).
Proof.
  split; [reflexivity|]. split; [|reflexivity].
  eexists. split; [reflexivity|]. vm_compute. reflexivity.
Qed.

(** C9 on [Par(V(1), V(1))], [Par(V(1), V(2))] and [Ser(I(1), I(1))]. *)
Lemma two_V_in_Par_two_I_in_Ser_witness :
  (exists msg, Par_init [Leaf Rat.V1; Leaf Rat.V1] = Err (ValueError msg)) /\
  (exists msg, Par_init [Leaf Rat.V1; Leaf Rat.V2] = Err (ValueError msg)) /\
  (exists msg, Ser_init [Leaf Rat.I1; Leaf Rat.I1] = Err (ValueError msg)).
Proof.
  split; [|split].
  - destruct (two_V_in_Par_two_I_in_Ser [] [] [] (Leaf Rat.V1) (Leaf Rat.V1)) as (H & _).
    exact (H eq_refl eq_refl).
  - destruct (two_V_in_Par_two_I_in_Ser [] [] [] (Leaf Rat.V1) (Leaf Rat.V2)) as (H & _).
    exact (H eq_refl eq_refl).
  - destruct (two_V_in_Par_two_I_in_Ser [] [] [] (Leaf Rat.I1) (Leaf Rat.I1)) as (_ & H & _).
    exact (H eq_refl eq_refl).
Defined.

(** C3, amended, on the test [(L(10) + L(5)).simplify()]: one inductor,
    of inductance 15. *)
Lemma series_inductors_combine_witness :
  seqb (cExpr (snum 0)) (cExpr (snum 0)) = true /\
  simplify true (Ser [Leaf Rat.L10; Leaf Rat.L5])
  = Ok (Leaf (L_init (sadd (snum 10) (snum 5)) None)) /\
  seqb (sadd (snum 10) (snum 5)) (snum 15) = true.
Proof.
  split; [reflexivity|]. split; [|reflexivity].
  destruct (series_inductors_combine (E := Rat.engine) true (snum 10) (snum 5)
              None None) as (H & _).
  apply H; [reflexivity|]. split; reflexivity.
Defined.

(** C3 refuted: with an initial current on one inductor only, the
    series does not combine and [simplify] raises, whether the value
    given is 2 or 0. *)
Lemma one_initial_current_raises :
  simplify true (Ser [Leaf Rat.L10_ic2; Leaf Rat.L5]) = Err (ValueError L_conflict_msg) /\
  simplify true (Ser [Leaf Rat.L10_ic0; Leaf Rat.L5]) = Err (ValueError L_conflict_msg).
Proof. split; vm_compute; reflexivity. Qed.

(** C5 on [Vdc(0) + R(5)]: the voltage of the source is zero, and the
    series is returned as it is. *)
Lemma zero_source_not_absorbed_witness :
  isinstance (Leaf Rat.Vdc0) cVoltageSource = true /\
  class_of (Leaf Rat.Vdc0) <> cV /\
  seqb (cExpr (snum 5)) (snum 0) = false /\
  (exists q, Voc (Leaf Rat.Vdc0) = Ok q /\ q_eq0 q = true) /\
  simplify true (Ser [Leaf Rat.Vdc0; Leaf Rat.R5])
  = Ok (Ser [Leaf Rat.Vdc0; Leaf Rat.R5]).
Proof.
  split; [reflexivity|]. split; [discriminate|]. split; [reflexivity|].
  split; [eexists; split; [reflexivity|vm_compute; reflexivity]|].
  destruct (zero_source_not_absorbed (E := Rat.engine) true Rat.Vdc0 (snum 5))
    as [H _].
  destruct (H eq_refl ltac:(discriminate) eq_refl) as (_ & _ & Hs & _).
  exact Hs.
Defined.

(** X19 on the example [(R(0) + V(5)).simplify()]. *)
Lemma degenerate_element_absorbed_witness :
  resolvable Rat.R0 = true /\ resolvable Rat.V5 = true /\
  class_of (Leaf Rat.R0) <> class_of (Leaf Rat.V5) /\
  degenerate_in_Ser (Leaf Rat.R0) /\
  simplify true (Ser [Leaf Rat.R0; Leaf Rat.V5]) = Ok (Leaf Rat.V5).
Proof.
  assert (D : degenerate_in_Ser (Leaf Rat.R0)).
  { right. split; [left; reflexivity|].
    eexists. split; [reflexivity|]. vm_compute. reflexivity. }
  split; [reflexivity|]. split; [reflexivity|]. split; [discriminate|].
  split; [exact D|].
  destruct (degenerate_element_absorbed true Rat.R0 Rat.V5 eq_refl eq_refl
              ltac:(discriminate)) as [H _].
  destruct (H (or_introl D)) as [(_ & _ & Hs)|(D' & _ & _)]; [exact Hs|].
  exfalso. destruct D' as [[_ (q & Hq & Hz)]|[[Hc|Hc] _]];
    [|discriminate Hc|discriminate Hc].
  injection Hq as <-. vm_compute in Hz. discriminate Hz.
Defined.

(** Zero elements that are kept: [Z(0)] has zero impedance and is not
    absorbed next to another [Z], the rule being for leaves of
    different classes; [Vdc(0)] has zero voltage and is not absorbed
    next to [R(5)]. *)
Example degenerate_not_absorbed :
  (exists q, impedance (Leaf Rat.Z0) = Ok q /\ q_eq0 q = true) /\
  _combine cSer (Leaf Rat.Z0) (Leaf Rat.Z3) = Ok None /\
  simplify true (Ser [Leaf Rat.Z0; Leaf Rat.Z3]) = Ok (Ser [Leaf Rat.Z0; Leaf Rat.Z3]) /\
  (exists q, Voc (Leaf Rat.Vdc0) = Ok q /\ q_eq0 q = true) /\
  _combine cSer (Leaf Rat.Vdc0) (Leaf Rat.R5) = Ok None /\
  simplify true (Ser [Leaf Rat.Vdc0; Leaf Rat.R5]) = Ok (Ser [Leaf Rat.Vdc0; Leaf Rat.R5]).
Proof.
  split; [eexists; split; [reflexivity|vm_compute; reflexivity]|].
  split; [vm_compute; reflexivity|].
  split; [vm_compute; reflexivity|].
  split; [eexists; split; [reflexivity|vm_compute; reflexivity]|].
  split; vm_compute; reflexivity.
Qed.

(** C6, amended, on [R(5) + V(0)]: it simplifies to [R(5)], whose
    [Voc] is zero, and [thevenin] is the impedance component alone; and
    on [V(5)], whose impedance is zero and whose [thevenin] is the
    voltage component alone. *)
Lemma thevenin_norton_shape_witness :
  simplify true (Ser [Leaf Rat.R5; Leaf Rat.V0]) = Ok (Leaf Rat.R5) /\
  thevenin (Ser [Leaf Rat.R5; Leaf Rat.V0]) = cpt (Impedance (snum 5)) /\
  is_ok (cpt (Impedance (snum 5))) = true /\
  simplify true (Leaf Rat.V5) = Ok (Leaf Rat.V5) /\
  thevenin (Leaf Rat.V5) = cpt (Voltage (snum 5)) /\
  is_ok (cpt (Voltage (snum 5))) = true.
Proof.
  assert (Hs : simplify true (Ser [Leaf Rat.R5; Leaf Rat.V0]) = Ok (Leaf Rat.R5))
    by (vm_compute; reflexivity).
  split; [exact Hs|].
  split.
  { destruct (thevenin_norton_shape _ _ Hs) as [H _].
    destruct (H (Voltage (snum 0)) (Impedance (snum 5)) eq_refl eq_refl)
      as (H0 & _).
    destruct (H0 _ _ eq_refl eq_refl) as (H1 & _).
    exact (H1 eq_refl). }
  split; [reflexivity|]. split; [reflexivity|]. split; [|reflexivity].
  destruct (thevenin_norton_shape (Leaf Rat.V5) (Leaf Rat.V5) eq_refl) as [H _].
  destruct (H (Voltage (snum 5)) (Impedance (snum 0)) eq_refl eq_refl)
    as (H0 & _).
  destruct (H0 _ _ eq_refl eq_refl) as (_ & H1 & _).
  exact (H1 eq_refl eq_refl).
Defined.

(** C6 refuted: [I(5) + R(0)] simplifies to [I(5)], whose admittance is
    zero, and [norton] returns a current source, not a voltage source;
    so does [norton] of the leaf [I(5)]. *)
Lemma norton_returns_current_leaf :
  simplify true (Ser [Leaf Rat.I5; Leaf Rat.R0]) = Ok (Leaf Rat.I5) /\
  (exists y, admittance (Leaf Rat.I5) = Ok y /\ q_eq0 y = true) /\
  (exists r, norton (Ser [Leaf Rat.I5; Leaf Rat.R0]) = Ok r /\
             isinstance r cCurrentSource = true /\
             isinstance r cVoltageSource = false) /\
  (exists r, norton (Leaf Rat.I5) = Ok r /\
             isinstance r cCurrentSource = true /\
             isinstance r cVoltageSource = false).
Proof.
  split; [vm_compute; reflexivity|].
  split; [eexists; split; [reflexivity|vm_compute; reflexivity]|].
  split; eexists; (split; [vm_compute; reflexivity|]); split; reflexivity.
Qed.

(** C10 on [FerriteBead(1, 2, 3, 4)]. *)
Lemma FerriteBead_is_series_chain_witness :
  exists bead : leaf sym,
    FerriteBead_init (snum 1) (snum 2) (snum 3) (snum 4) = Ok bead /\
    _Z bead
    = Some (Impedance
              (sadd (sadd (sadd (snum 1) (snum 2))
                                (smul (snum 1) (snum 4)))
                       (sdiv (snum 1) (smul (snum 1) (snum 3))))).
Proof.
  destruct (FerriteBead_is_series_chain (E := Rat.engine) (snum 1) (snum 2) (snum 3)
              (snum 4)) as (bead & z & Hb & _ & _ & _ & _ & HZ & _ & Hsum).
  exists bead. split; [exact Hb|]. rewrite HZ. f_equal.
  apply Hsum.
  - exact Rat_add_0_l.
  - exact Rat_add_assoc.
  - reflexivity.
Defined.

(** The tests of test_oneport.py that need no network solver. *)
Example test_R_series_L :
  exists q, impedance (Ser [Leaf (R_init (snum 10)); Leaf Rat.L5]) = Ok q /\
            seqb (qval q) (snum 15) = true.
Proof. eexists. split; [reflexivity|]. vm_compute. reflexivity. Qed.

Example test_R_parallel_R :
  exists l, simplify true (Par [Leaf (R_init (snum 10));
                                Leaf (R_init (snum 15))]) = Ok (Leaf l) /\
            body_class (attrs l) = cR /\
            exists q, impedance (Leaf l) = Ok q /\
                      seqb (qval q) (snum 6) = true.
Proof.
  eexists. split; [vm_compute; reflexivity|]. split; [reflexivity|].
  eexists. split; [reflexivity|]. vm_compute. reflexivity.
Qed.

Example test_I_parallel_I :
  exists l, simplify true (Par [Leaf (Idc_init (snum 10));
                                Leaf (Idc_init (snum 5))]) = Ok (Leaf l) /\
            body_class (attrs l) = cIdc /\
            exists q, Isc (Leaf l) = Ok q /\
                      seqb (qval q) (snum 15) = true.
Proof.
  eexists. split; [vm_compute; reflexivity|]. split; [reflexivity|].
  eexists. split; [reflexivity|]. vm_compute. reflexivity.
Qed.

(** ** The further properties on the rational engine *)

(** X4 on [I(1) | I(5)]. *)
Lemma parallel_I_pair_raises_witness :
  Par_init [Leaf Rat.I1; Leaf Rat.I5] = Ok (Par [Leaf Rat.I1; Leaf Rat.I5]) /\
  simplify true (Par [Leaf Rat.I1; Leaf Rat.I5]) = Err (ValueError Ser_msg).
Proof. exact (parallel_I_pair_raises true Rat.I1 Rat.I5 eq_refl eq_refl). Defined.

(** X5 on [(I(1) + R(5)) + I(5)] and [(V(1) | R(5)) | V(5)]. *)
Lemma nested_sources_raise_in_simplify_witness :
  resolvable Rat.R5 = true /\
  simplify true (Ser [Ser [Leaf Rat.I1; Leaf Rat.R5]; Leaf Rat.I5])
  = Err (ValueError Ser_msg) /\
  simplify true (Par [Par [Leaf Rat.V1; Leaf Rat.R5]; Leaf Rat.V5])
  = Err (ValueError Par_msg).
Proof.
  split; [reflexivity|]. split.
  - destruct (nested_sources_raise_in_simplify true Rat.I1 Rat.R5 Rat.I5 eq_refl)
      as [H _].
    apply H; [reflexivity|reflexivity|discriminate].
  - destruct (nested_sources_raise_in_simplify true Rat.V1 Rat.R5 Rat.V5 eq_refl)
      as [_ H].
    destruct (H eq_refl eq_refl ltac:(discriminate)) as (_ & _ & Hs & _).
    apply Hs. intros Hc. discriminate Hc.
Defined.

(** X5, the unreadable case: a leaf of the class [I] that stores an
    admittance and no [_Isc] has an [Isc] that raises, and [simplify]
    raises that error. *)
Example nested_I_without_Isc :
  let b := mkLeaf bI (Some (q_recip (Admittance (snum 2)))) None None None in
  resolvable b = true /\ class_of (Leaf b) = cI /\
  exists msg,
    Isc (Leaf b) = Err (TypeError msg) /\
    simplify true (Par [Par [Leaf Rat.V1; Leaf b]; Leaf Rat.V5]) = Err (TypeError msg).
Proof. repeat split. eexists. split; reflexivity. Qed.

(** X2 on [(R(5) + L(10)) + (R(5) | R(5)) + L(5)]. *)
Lemma immittance_defined_iff_witness :
  all_leaves own_kinds RatNets.nested = true /\
  all_leaves resolvable RatNets.nested = true /\
  is_ok (impedance RatNets.nested) = true /\
  is_ok (admittance RatNets.nested) = true.
Proof.
  split; [reflexivity|]. split; [reflexivity|].
  destruct (immittance_defined_iff RatNets.nested eq_refl) as ((H1 & H2) & _).
  split; [exact H1|exact H2].
Defined.

(** X3 on [R(5) | V(5) | L(10)] and [R(5) + I(5) + L(10)]. *)
Lemma redundancy_warnings_witness :
  Par_warnings [Leaf Rat.R5; Leaf Rat.V5; Leaf Rat.L10]
  = Ok [Redundant (Leaf Rat.R5) (Leaf Rat.V5);
        Redundant (Leaf Rat.L10) (Leaf Rat.V5)] /\
  Ser_warnings [Leaf Rat.R5; Leaf Rat.I5; Leaf Rat.L10]
  = Ok [Redundant (Leaf Rat.R5) (Leaf Rat.I5);
        Redundant (Leaf Rat.L10) (Leaf Rat.I5)].
Proof.
  split.
  - destruct (redundancy_warnings [Leaf Rat.R5] [Leaf Rat.L10] (Leaf Rat.V5))
      as (_ & H & _).
    exact (H eq_refl eq_refl eq_refl).
  - destruct (redundancy_warnings [Leaf Rat.R5] [Leaf Rat.L10] (Leaf Rat.I5))
      as (_ & _ & _ & H).
    exact (H eq_refl eq_refl eq_refl).
Defined.

(** X6 on [FerriteBead(1, 2, 3, 4) + R(5)]. *)
Lemma expand_result_witness :
  exists m,
    expand RatNets.bead_R = Ok m /\
    all_leaves (fun l => negb (is_compound l)) m = true /\
    well_constructed m = true /\
    expand m = Ok m.
Proof.
  eexists. split; [vm_compute; reflexivity|].
  apply (expand_result RatNets.bead_R). vm_compute. reflexivity.
Defined.

(** X8 on [(R(5) + L(10)) + (R(5) | R(5)) + L(5)]. *)
Lemma simplify_flat_witness :
  exists m, simplify true RatNets.nested = Ok m /\ flat m = true.
Proof.
  eexists. split; [vm_compute; reflexivity|].
  apply (simplify_flat true RatNets.nested). vm_compute. reflexivity.
Defined.

(** X9 on the same network. *)
Lemma simplify_well_constructed_witness :
  well_constructed RatNets.nested = true /\
  exists m, simplify false RatNets.nested = Ok m /\ well_constructed m = true.
Proof.
  split; [reflexivity|]. eexists. split; [vm_compute; reflexivity|].
  apply (simplify_well_constructed false RatNets.nested); vm_compute; reflexivity.
Defined.

(** X11 on [R(5) + Vdc(10) + L(10, 2)]. *)
Lemma s_model_result_witness :
  exists m,
    s_model RatNets.loaded = Ok m /\
    all_leaves is_s_leaf m = true /\ well_constructed m = true.
Proof.
  eexists. split; [vm_compute; reflexivity|].
  apply (s_model_result RatNets.loaded). vm_compute. reflexivity.
Defined.

(** X15 on [Vdc(10) | Vdc(5)], which the constructor accepts. *)
Lemma s_model_parallel_voltage_sources_witness :
  Par_init [Leaf Rat.Vdc10; Leaf RatNets.Vdc5]
  = Ok (Par [Leaf Rat.Vdc10; Leaf RatNets.Vdc5]) /\
  s_model (Par [Leaf Rat.Vdc10; Leaf RatNets.Vdc5]) = Err (ValueError Par_msg).
Proof.
  destruct (s_model_parallel_voltage_sources Rat.Vdc10 RatNets.Vdc5
              (Voltage (snum 10)) (Voltage (snum 5))
              eq_refl eq_refl eq_refl eq_refl eq_refl eq_refl eq_refl eq_refl eq_refl)
    as (_ & _ & H & HP).
  split; [apply HP; discriminate|exact H].
Defined.

(** X17 on [R + (L + L) + R] and [R | (L | L) | R], every leaf printing
    as its class letter. *)
Lemma text_ignores_nesting_witness :
  ParSer_text RatNets.class_letter
    (Ser [Leaf Rat.R5; Ser [Leaf Rat.L10; Leaf Rat.L5]; Leaf Rat.R5])
  = ParSer_text RatNets.class_letter
      (Ser [Leaf Rat.R5; Leaf Rat.L10; Leaf Rat.L5; Leaf Rat.R5]) /\
  ParSer_text RatNets.class_letter
    (Par [Leaf Rat.R5; Par [Leaf Rat.L10; Leaf Rat.L5]; Leaf Rat.R5])
  = ParSer_text RatNets.class_letter
      (Par [Leaf Rat.R5; Leaf Rat.L10; Leaf Rat.L5; Leaf Rat.R5]).
Proof.
  apply (text_ignores_nesting RatNets.class_letter [Leaf Rat.R5]
           [Leaf Rat.L10; Leaf Rat.L5] [Leaf Rat.R5]).
  discriminate.
Defined.

(** X18 on [R(5) + R(5) + R(5)]. *)
Lemma simplify_keeps_series_resistance_witness :
  (forall x : sym, sadd (snum 0) x = x) /\
  (forall a b : sym, cExpr (sadd a b) = sadd a b) /\
  exists m,
    simplify true (Ser [Leaf Rat.R5; Leaf Rat.R5; Leaf Rat.R5]) = Ok m /\
    impedance (Ser [Leaf Rat.R5; Leaf Rat.R5; Leaf Rat.R5])
    = Ok (Impedance (sadd (sadd (snum 5) (snum 5)) (snum 5))) /\
    impedance m = Ok (Impedance (sadd (sadd (snum 5) (snum 5)) (snum 5))).
Proof.
  split; [exact Rat_add_0_l|]. split; [reflexivity|].
  exact (simplify_keeps_series_resistance true (snum 5) (snum 5) [snum 5]
           Rat_add_0_l (fun _ _ => eq_refl)).
Defined.
